(** * Derived node records of the rollup validator

    A shallow embedding of
    [packages/arb-validator/rollupvalidator/nodeProcessing.go]:
    the [nodeInfo] record, its derivation from a dispute-tree node
    ([processNode]), log queries ([FindLogs]), the bloom-filter input
    ([calculateBloomFilter]), the transaction view ([getTxInfo]) and the
    structural comparison ([Equals]).

    Go slices are lists, [uint64] and [uint] values are [N] (wrap-around is
    written out where the code does arithmetic on them), byte arrays are
    [list byte], Go strings are [string].  A run-time panic (index or slice
    bound out of range) is [None].  Lines written by [log.Printf] are
    collected in a trace that is returned next to the result. *)

From Stdlib Require Import NArith Strings.Byte Strings.Ascii Strings.String.
From stdpp Require Import base list strings numbers option sorting.

Local Open Scope N_scope.

#[global] Instance byte_eq_dec : EqDecision byte := Byte.byte_eq_dec.

(** ** Basic data *)

(** [common.Hash] is [[32]byte], [common.Address] is [[20]byte]. *)
Definition Hash : Type := list byte.
Definition Address : Type := list byte.

(** [common.Hash{}]: the zero value of the array type. *)
Definition zeroHash : Hash := replicate 32 "000"%byte.

(** Arithmetic on [uint64] (and on [uint], 64 bits wide on the platforms the
    validator runs on) wraps modulo [2^64]. *)
Definition wrap64 (n : N) : N := n mod 2 ^ 64.

(** A Go [for i, x := range l] loop with loop state [S]. *)
Fixpoint range_from {A S : Type} (body : nat → A → S → S)
    (i : nat) (l : list A) (s : S) : S :=
  match l with
  | [] => s
  | x :: l' => range_from body (i + 1)%nat l' (body i x s)
  end.

Definition range {A S : Type} (body : nat → A → S → S) (l : list A) (s : S) : S :=
  range_from body 0%nat l s.

(** ** [hexutil.Encode] (go-ethereum): ["0x"] and two lower-case hexadecimal
    digits per byte. *)
Definition hexDigit (n : N) : ascii :=
  match n with
  | 0 => "0" | 1 => "1" | 2 => "2" | 3 => "3" | 4 => "4" | 5 => "5"
  | 6 => "6" | 7 => "7" | 8 => "8" | 9 => "9" | 10 => "a" | 11 => "b"
  | 12 => "c" | 13 => "d" | 14 => "e" | _ => "f"
  end%char.

Fixpoint hexBytes (b : list byte) : string :=
  match b with
  | [] => EmptyString
  | x :: b' =>
      String (hexDigit (Byte.to_N x / 16))
        (String (hexDigit (Byte.to_N x mod 16)) (hexBytes b'))
  end.

Definition Encode (b : list byte) : string := String "0" (String "x" (hexBytes b)).

(** ** Collaborators outside this file *)

(** [value.Value] is a Go interface; the code uses its [Hash] method and the
    package function [value.Eq]. *)
Class ValueOps (Value : Type) := {
  Value_Hash : Value → Hash;
  Value_Eq : Value → Value → bool
}.

(** The 256-bit hash primitive under [hashing.SoliditySHA3]. *)
Class HashPrimitive := { keccak256 : list byte → Hash }.

(** Modelled from the spec: [hashing.Bytes32] and [hashing.SoliditySHA3] are
    declared in arb-util, outside the file.  Section 4.1: a single hash over
    the packed concatenation of the arguments, no separators and no length
    prefixes. *)
Definition Bytes32 (h : Hash) : list byte := h.
Definition SoliditySHA3 `{HashPrimitive} (parts : list (list byte)) : Hash :=
  keccak256 (concat parts).

(** Modelled from the spec: [evm.Log] is declared in arb-validator-core; a
    log has an address, a sequence of topics and a payload. *)
Record Log := mkLog {
  Log_Address : Address;
  Log_Topics : list Hash;
  Log_Data : list byte
}.

#[global] Instance Log_eq_dec : EqDecision Log.
Proof. solve_decision. Defined.

(** [evm.Result] is a Go interface with [GetEthMsg] and [GetLogs]; the type
    assertion [evmVal.(evm.Revert)] is [AsRevert], which yields the
    [ReturnVal] of a revert.  [Msg_TxHash] is the [TxHash] method of the
    message. *)
Class EvmResult (Result Msg : Type) := {
  GetEthMsg : Result → Msg;
  GetLogs : Result → list Log;
  AsRevert : Result → option (list byte);
  Msg_TxHash : Msg → Hash
}.

(** [evm.ProcessLog]: decoding of one raw log, which may fail. *)
Class LogDecoder (Value Result Err : Type) := {
  ProcessLog : Value → Address → Result + Err
}.

(** Modelled from the spec: [valprotocol.ChildType] is declared outside the
    file; section 6 gives it as [enum{Valid, Other...}]. *)
Inductive ChildType :=
  | ValidChildType
  | OtherChildType (tag : N).

#[global] Instance ChildType_eq_dec : EqDecision ChildType.
Proof. solve_decision. Defined.

(** [valprotocol.ExecutionAssertion], as far as the code reads it. *)
Record Assertion (Value : Type) := mkAssertion {
  OutMsgs : list Value;
  Logs : list Value
}.
Arguments mkAssertion {Value}.
Arguments OutMsgs {Value}.
Arguments Logs {Value}.

(** Modelled from the spec: [structures.Node] is declared outside the file;
    section 6 lists the methods the code calls.  [Node_Assertion] is read
    only when the link type is [ValidChildType]. *)
Record Node (Value : Type) := mkNode {
  Node_Hash : Hash;
  Node_Depth : N;
  Node_LinkType : ChildType;
  Node_AssertionTxHash : Hash;
  Node_Assertion : Assertion Value
}.
Arguments mkNode {Value}.
Arguments Node_Hash {Value}.
Arguments Node_Depth {Value}.
Arguments Node_LinkType {Value}.
Arguments Node_AssertionTxHash {Value}.
Arguments Node_Assertion {Value}.

(** ** The derived record *)

(** [logsInfo]: the logs of one decoded transaction. *)
Record logsInfo := mkLogsInfo {
  li_Logs : list Log;
  li_TxIndex : N;
  li_TxHash : Hash
}.

#[global] Instance logsInfo_eq_dec : EqDecision logsInfo.
Proof. solve_decision. Defined.

(** [logResponse]: one matched log and where it came from. *)
Record logResponse := mkLogResponse {
  lr_Log : Log;
  lr_TxIndex : N;
  lr_TxHash : Hash
}.

Record nodeInfo (Value : Type) := mkNodeInfo {
  EVMLogs : list logsInfo;
  EVMTransactionHashes : list Hash;
  AVMLogs : list Value;
  AVMMessages : list Value;
  AVMLogsAccHashes : list string;
  AVMLogsValHashes : list string;
  NodeHash : Hash;
  NodeHeight : N;
  L1TxHash : Hash
}.
Arguments mkNodeInfo {Value}.
Arguments EVMLogs {Value}.
Arguments EVMTransactionHashes {Value}.
Arguments AVMLogs {Value}.
Arguments AVMMessages {Value}.
Arguments AVMLogsAccHashes {Value}.
Arguments AVMLogsValHashes {Value}.
Arguments NodeHash {Value}.
Arguments NodeHeight {Value}.
Arguments L1TxHash {Value}.

(** [newNodeInfo]: every field has its zero value. *)
Definition newNodeInfo {Value : Type} : nodeInfo Value :=
  mkNodeInfo [] [] [] [] [] [] zeroHash 0 zeroHash.

(** Field assignments [ni.F = x]. *)
Section Setters.
Context {Value : Type}.
Implicit Type ni : nodeInfo Value.

Definition set_EVMLogs ni x :=
  mkNodeInfo x (EVMTransactionHashes ni) (AVMLogs ni) (AVMMessages ni)
    (AVMLogsAccHashes ni) (AVMLogsValHashes ni) (NodeHash ni) (NodeHeight ni)
    (L1TxHash ni).
Definition set_EVMTransactionHashes ni x :=
  mkNodeInfo (EVMLogs ni) x (AVMLogs ni) (AVMMessages ni)
    (AVMLogsAccHashes ni) (AVMLogsValHashes ni) (NodeHash ni) (NodeHeight ni)
    (L1TxHash ni).
Definition set_AVMLogs ni x :=
  mkNodeInfo (EVMLogs ni) (EVMTransactionHashes ni) x (AVMMessages ni)
    (AVMLogsAccHashes ni) (AVMLogsValHashes ni) (NodeHash ni) (NodeHeight ni)
    (L1TxHash ni).
Definition set_AVMMessages ni x :=
  mkNodeInfo (EVMLogs ni) (EVMTransactionHashes ni) (AVMLogs ni) x
    (AVMLogsAccHashes ni) (AVMLogsValHashes ni) (NodeHash ni) (NodeHeight ni)
    (L1TxHash ni).
Definition set_AVMLogsAccHashes ni x :=
  mkNodeInfo (EVMLogs ni) (EVMTransactionHashes ni) (AVMLogs ni)
    (AVMMessages ni) x (AVMLogsValHashes ni) (NodeHash ni) (NodeHeight ni)
    (L1TxHash ni).
Definition set_AVMLogsValHashes ni x :=
  mkNodeInfo (EVMLogs ni) (EVMTransactionHashes ni) (AVMLogs ni)
    (AVMMessages ni) (AVMLogsAccHashes ni) x (NodeHash ni) (NodeHeight ni)
    (L1TxHash ni).
Definition set_NodeHash ni x :=
  mkNodeInfo (EVMLogs ni) (EVMTransactionHashes ni) (AVMLogs ni)
    (AVMMessages ni) (AVMLogsAccHashes ni) (AVMLogsValHashes ni) x
    (NodeHeight ni) (L1TxHash ni).
Definition set_NodeHeight ni x :=
  mkNodeInfo (EVMLogs ni) (EVMTransactionHashes ni) (AVMLogs ni)
    (AVMMessages ni) (AVMLogsAccHashes ni) (AVMLogsValHashes ni)
    (NodeHash ni) x (L1TxHash ni).
Definition set_L1TxHash ni x :=
  mkNodeInfo (EVMLogs ni) (EVMTransactionHashes ni) (AVMLogs ni)
    (AVMMessages ni) (AVMLogsAccHashes ni) (AVMLogsValHashes ni)
    (NodeHash ni) (NodeHeight ni) x.
End Setters.

(** ** [processNode] *)

(** What [log.Printf] is called with. *)
Inductive Diagnostic (Err : Type) :=
  | InvalidEvmResult (err : Err)
  | RevertOccurred (returnVal : list byte).
Arguments InvalidEvmResult {Err}.
Arguments RevertOccurred {Err}.

Section Derive.
Context {Value Result Msg Err : Type}.
Context `{!ValueOps Value, !HashPrimitive, !EvmResult Result Msg,
          !LogDecoder Value Result Err}.

(** Body of the first loop: state is the running accumulator [acc] and
    the record under construction. *)
Definition accBody (_ : nat) (logsVal : Value)
    (st : Hash * nodeInfo Value) : Hash * nodeInfo Value :=
  let '(acc, ni) := st in
  let logsValHash := Value_Hash logsVal in
  let ni := set_AVMLogsValHashes ni
              (AVMLogsValHashes ni ++ [Encode logsValHash]) in
  let acc := SoliditySHA3 [Bytes32 acc; Bytes32 logsValHash] in
  let ni := set_AVMLogsAccHashes ni (AVMLogsAccHashes ni ++ [Encode acc]) in
  (acc, ni).

(** Body of the second loop: state is the record and the trace.  The index
    [i] of a [range] loop is a non-negative [int], so [uint64(i)] is [i]. *)
Definition evmBody (chain : Address) (i : nat) (logVal : Value)
    (st : nodeInfo Value * list (Diagnostic Err))
    : nodeInfo Value * list (Diagnostic Err) :=
  let '(ni, trace) := st in
  match ProcessLog logVal chain with
  | inr err => (ni, trace ++ [InvalidEvmResult err])
  | inl evmVal =>
      let msg := GetEthMsg evmVal in
      let ni := set_EVMLogs ni
                  (EVMLogs ni ++ [mkLogsInfo (GetLogs evmVal) (N.of_nat i)
                                    (Msg_TxHash msg)]) in
      let trace := match AsRevert evmVal with
                   | Some returnVal => trace ++ [RevertOccurred returnVal]
                   | None => trace
                   end in
      let ni := set_EVMTransactionHashes ni
                  (EVMTransactionHashes ni ++ [Msg_TxHash msg]) in
      (ni, trace)
  end.

Definition processNode (node : Node Value) (chain : Address)
    : nodeInfo Value * list (Diagnostic Err) :=
  let ni := newNodeInfo in
  let ni := set_NodeHash ni (Node_Hash node) in
  let ni := set_NodeHeight ni (Node_Depth node) in
  let txHash := Node_AssertionTxHash node in
  let ni := set_L1TxHash ni txHash in
  if decide (Node_LinkType node ≠ ValidChildType) then (ni, [])
  else
    let logs := Logs (Node_Assertion node) in
    let ni := set_AVMMessages ni (OutMsgs (Node_Assertion node)) in
    let ni := set_AVMLogs ni (Logs (Node_Assertion node)) in
    let ni := set_AVMLogsValHashes ni [] in
    let ni := set_AVMLogsAccHashes ni [] in
    let acc := zeroHash in
    let '(_, ni) := range accBody logs (acc, ni) in
    let ni := set_EVMTransactionHashes ni [] in
    range (evmBody chain) logs (ni, []).
End Derive.

(** ** [FindLogs] *)

(** Modelled from the spec: [evm.Log.MatchesQuery] is declared in
    arb-validator-core.  Section 4.3: the address is in [addresses] (an empty
    [addresses] matches all); for each position [k] of [topics] the [k]-th
    topic of the log is in [topics[k]] (an empty set matches any topic); a log
    with fewer topics than [topics] has positions does not match. *)
Definition addressMatches (l : Log) (addresses : list Address) : bool :=
  match addresses with
  | [] => true
  | _ => bool_decide (Log_Address l ∈ addresses)
  end.

Fixpoint topicsMatch (logTopics : list Hash) (topics : list (list Hash))
    {struct topics} : bool :=
  match topics with
  | [] => true
  | topicGroup :: topics' =>
      match logTopics with
      | [] => false
      | t :: logTopics' =>
          match topicGroup with
          | [] => true
          | _ => bool_decide (t ∈ topicGroup)
          end && topicsMatch logTopics' topics'
      end
  end.

Definition MatchesQuery (l : Log) (addresses : list Address)
    (topics : list (list Hash)) : bool :=
  addressMatches l addresses && topicsMatch (Log_Topics l) topics.

Definition FindLogs {Value : Type} (ni : nodeInfo Value)
    (addresses : list Address) (topics : list (list Hash)) : list logResponse :=
  range (λ _ txLogs logs,
      range (λ _ evmLog logs,
          if MatchesQuery evmLog addresses topics
          then logs ++ [mkLogResponse evmLog (li_TxIndex txLogs) (li_TxHash txLogs)]
          else logs)
        (li_Logs txLogs) logs)
    (EVMLogs ni) [].

(** ** [calculateBloomFilter] *)

(** [evm.FullLog], with the fields the composite literal sets. *)
Record FullLog := mkFullLog {
  fl_Log : Log;
  fl_TxIndex : N;
  fl_TxHash : Hash;
  fl_NodeHeight : N;
  fl_NodeHash : Hash
}.

(** [types.Log] of go-ethereum. *)
Record EthLog := mkEthLog {
  el_Address : Address;
  el_Topics : list Hash;
  el_Data : list byte;
  el_BlockNumber : N;
  el_TxHash : Hash;
  el_TxIndex : N;
  el_BlockHash : Hash;
  el_Index : N
}.

(** Modelled from the spec: [evm.FullLog.ToEVMLog] is declared in
    arb-validator-core.  Section 4.4: the log, tagged with its node's hash
    and height and with a transaction index and hash, in the externally
    shaped representation; the log index is assigned by the caller. *)
Definition ToEVMLog (l : FullLog) : EthLog :=
  mkEthLog (Log_Address (fl_Log l)) (Log_Topics (fl_Log l)) (Log_Data (fl_Log l))
    (fl_NodeHeight l) (fl_TxHash l) (fl_TxIndex l) (fl_NodeHash l) 0.

Definition set_Index (l : EthLog) (x : N) : EthLog :=
  mkEthLog (el_Address l) (el_Topics l) (el_Data l) (el_BlockNumber l)
    (el_TxHash l) (el_TxIndex l) (el_BlockHash l) x.

(** [types.LogsBloom], the [Bytes] method of its result and
    [types.BytesToBloom] (go-ethereum). *)
Class BloomOps (Big Bloom : Type) := {
  LogsBloom : list EthLog → Big;
  Big_Bytes : Big → list byte;
  BytesToBloom : list byte → Bloom
}.

(** Body of the inner loop of [calculateBloomFilter], for the group
    [logsInfo] met at position [i] of [EVMLogs]: state is [ethLogs] and
    [logIndex]. *)
Definition bloomBody {Value : Type} (ni : nodeInfo Value) (i : nat)
    (logsInfo : logsInfo) (_ : nat) (ethLog : Log) (st : list EthLog * N)
    : list EthLog * N :=
  let '(ethLogs, logIndex) := st in
  let l := ToEVMLog (mkFullLog ethLog (N.of_nat i) (li_TxHash logsInfo)
                       (NodeHeight ni) (NodeHash ni)) in
  let l := set_Index l logIndex in
  (ethLogs ++ [l], wrap64 (logIndex + 1)).

(** The two loops of [calculateBloomFilter]. *)
Definition bloomLogs {Value : Type} (ni : nodeInfo Value) : list EthLog * N :=
  range (λ i logsInfo st, range (bloomBody ni i logsInfo) (li_Logs logsInfo) st)
    (EVMLogs ni) ([], 0).

Definition calculateBloomFilter {Value Big Bloom : Type} `{!BloomOps Big Bloom}
    (ni : nodeInfo Value) : Bloom :=
  BytesToBloom (Big_Bytes (LogsBloom (bloomLogs ni).1)).

(** ** [Equals] *)

(** The shape shared by the four [...SlicesEqual] functions.  [b[i]] is in
    range whenever it is read, because the lengths were compared first; the
    [None] branch stands for the panic that cannot happen. *)
Fixpoint slicesEqual_from {A : Type} (same : A → A → bool)
    (i : nat) (a b : list A) : bool :=
  match a with
  | [] => true
  | t :: a' =>
      match b !! i with
      | Some u => if negb (same t u) then false
                  else slicesEqual_from same (i + 1)%nat a' b
      | None => false
      end
  end.

Definition slicesEqual {A : Type} (same : A → A → bool) (a b : list A) : bool :=
  if negb (length a =? length b)%nat then false
  else slicesEqual_from same 0%nat a b.

(** The same loop and function with the panic of an out-of-range [b[i]]
    kept as [None]. *)
Fixpoint slicesEqual_from_checked {A : Type} (same : A → A → bool)
    (i : nat) (a b : list A) : option bool :=
  match a with
  | [] => Some true
  | t :: a' =>
      match b !! i with
      | Some u => if negb (same t u) then Some false
                  else slicesEqual_from_checked same (i + 1)%nat a' b
      | None => None
      end
  end.

Definition slicesEqual_checked {A : Type} (same : A → A → bool)
    (a b : list A) : option bool :=
  if negb (length a =? length b)%nat then Some false
  else slicesEqual_from_checked same 0%nat a b.

(** Modelled from the spec: [evm.Log.Equals] and [logsInfo.Equals] are
    declared outside the file.  Section 4.6: same transaction index, same
    transaction hash and element-wise equal logs. *)
Definition Log_Equals (a b : Log) : bool := bool_decide (a = b).

Definition logsInfo_Equals (a b : logsInfo) : bool :=
  slicesEqual Log_Equals (li_Logs a) (li_Logs b)
  && bool_decide (li_TxIndex a = li_TxIndex b)
  && bool_decide (li_TxHash a = li_TxHash b).

Definition valueSlicesEqual {Value : Type} `{!ValueOps Value}
    (a b : list Value) : bool := slicesEqual Value_Eq a b.
Definition valueSlicesEqual_checked {Value : Type} `{!ValueOps Value}
    (a b : list Value) : option bool := slicesEqual_checked Value_Eq a b.
Definition stringSlicesEqual (a b : list string) : bool :=
  slicesEqual (λ t u, bool_decide (t = u)) a b.
Definition logSlicesEqual (a b : list logsInfo) : bool :=
  slicesEqual logsInfo_Equals a b.
Definition hashSlicesEqual (a b : list Hash) : bool :=
  slicesEqual (λ t u, bool_decide (t = u)) a b.

Definition Equals {Value : Type} `{!ValueOps Value} (ni o : nodeInfo Value) : bool :=
  logSlicesEqual (EVMLogs ni) (EVMLogs o)
  && hashSlicesEqual (EVMTransactionHashes ni) (EVMTransactionHashes o)
  && valueSlicesEqual (AVMLogs ni) (AVMLogs o)
  && valueSlicesEqual (AVMMessages ni) (AVMMessages o)
  && stringSlicesEqual (AVMLogsAccHashes ni) (AVMLogsAccHashes o)
  && stringSlicesEqual (AVMLogsValHashes ni) (AVMLogsValHashes o)
  && bool_decide (NodeHash ni = NodeHash o)
  && bool_decide (NodeHeight ni = NodeHeight o).

(** ** [getTxInfo] *)

(** [evm.TxInfo], with the fields the composite literal sets. *)
Record TxInfo (Value : Type) := mkTxInfo {
  Found : bool;
  ti_NodeHeight : N;
  ti_NodeHash : Hash;
  TransactionHash : Hash;
  TransactionIndex : N;
  RawVal : Value;
  LogsPreHash : string;
  LogsPostHash : string;
  LogsValHashes : list string;
  OnChainTxHash : Hash
}.
Arguments mkTxInfo {Value}.
Arguments Found {Value}.
Arguments ti_NodeHeight {Value}.
Arguments ti_NodeHash {Value}.
Arguments TransactionHash {Value}.
Arguments TransactionIndex {Value}.
Arguments RawVal {Value}.
Arguments LogsPreHash {Value}.
Arguments LogsPostHash {Value}.
Arguments LogsValHashes {Value}.
Arguments OnChainTxHash {Value}.

(** [a[i]] with a [uint64] index: a panic when [i] is out of range. *)
Definition index {A : Type} (a : list A) (i : N) : option A := a !! N.to_nat i.

(** [a[low:]]: a panic when [low] exceeds [len(a)]. *)
Definition sliceFrom {A : Type} (a : list A) (low : N) : option (list A) :=
  if decide (N.to_nat low ≤ length a)%nat then Some (drop (N.to_nat low) a)
  else None.

(** [uint64] subtraction. *)
Definition sub64 (a b : N) : N := wrap64 (a + 2 ^ 64 - b).

Definition getTxInfo {Value : Type} (txHash : Hash) (ni : nodeInfo Value)
    (txIndex : N) : option (TxInfo Value) :=
  let zero := zeroHash in
  logsPostHash ←
    (if decide (0 < length (AVMLogsAccHashes ni))%nat
     then AVMLogsAccHashes ni !! (length (AVMLogsAccHashes ni) - 1)%nat
     else Some (Encode zero));
  logsPreHash ←
    (if decide (0 < txIndex)
     then index (AVMLogsAccHashes ni) (sub64 txIndex 1)
     else Some (Encode zero));
  logsValHashes ← sliceFrom (AVMLogsValHashes ni) (wrap64 (txIndex + 1));
  rawVal ← index (AVMLogs ni) txIndex;
  Some (mkTxInfo true (NodeHeight ni) (NodeHash ni) txHash txIndex rawVal
          logsPreHash logsPostHash logsValHashes (L1TxHash ni)).


(** ** Reference descriptions used by the statements below *)

(** Inverse of [hexDigit] on the sixteen digits it produces. *)
Definition hexVal (c : ascii) : N :=
  let n := N_of_ascii c in
  if decide (n < 58) then n - 48 else n - 87.

(** Reads back what [hexBytes] writes. *)
Fixpoint unhexBytes (s : string) : list byte :=
  match s with
  | String hi (String lo s') =>
      default "000"%byte (Byte.of_N (16 * hexVal hi + hexVal lo)) :: unhexBytes s'
  | _ => []
  end.

(** The accumulator values after each raw log, starting from [acc]. *)
Fixpoint accChain {Value : Type} `{!ValueOps Value, !HashPrimitive}
    (acc : Hash) (logs : list Value) : list Hash :=
  match logs with
  | [] => []
  | v :: logs' =>
      let acc' := SoliditySHA3 [Bytes32 acc; Bytes32 (Value_Hash v)] in
      acc' :: accChain acc' logs'
  end.

(** What the raw log at index [i] contributes to [EVMLogs]: nothing when
    decoding fails, one group otherwise. *)
Definition decodedGroup {Value Result Msg Err : Type}
    `{!EvmResult Result Msg, !LogDecoder Value Result Err}
    (chain : Address) (i : nat) (v : Value) : list logsInfo :=
  match ProcessLog v chain with
  | inr _ => []
  | inl r => [mkLogsInfo (GetLogs r) (N.of_nat i) (Msg_TxHash (GetEthMsg r))]
  end.

(** The invariant of section 3 on the sequences derived from the raw logs; a
    Go slice has fewer than [2^63] elements. *)
Definition nodeInfo_wf {Value : Type} (ni : nodeInfo Value) : Prop :=
  length (AVMLogsValHashes ni) = length (AVMLogs ni)
  ∧ length (AVMLogsAccHashes ni) = length (AVMLogs ni)
  ∧ N.of_nat (length (AVMLogs ni)) < 2 ^ 63.

(** The responses of one group to a query. *)
Definition groupResponses (addresses : list Address) (topics : list (list Hash))
    (g : logsInfo) : list logResponse :=
  (λ l, mkLogResponse l (li_TxIndex g) (li_TxHash g))
    <$> filter (λ l, MatchesQuery l addresses topics) (li_Logs g).

(** The logs of the group at position [i] of [EVMLogs], tagged as
    [calculateBloomFilter] tags them, before the log index is assigned. *)
Definition bloomTagged {Value : Type} (ni : nodeInfo Value) (i : nat)
    (g : logsInfo) : list EthLog :=
  (λ l, ToEVMLog (mkFullLog l (N.of_nat i) (li_TxHash g)
                    (NodeHeight ni) (NodeHash ni))) <$> li_Logs g.

(** Replaying the accumulator from [acc] over a sequence of value hashes, as
    a verifier of the pre and post hashes of a transaction does. *)
Definition replay `{!HashPrimitive} (acc : Hash) (hs : list Hash) : Hash :=
  foldl (λ a h, SoliditySHA3 [Bytes32 a; Bytes32 h]) acc hs.

(** Whether a raw log decodes. *)
Definition decodes {Value Result Err : Type} `{!LogDecoder Value Result Err}
    (chain : Address) (v : Value) : bool :=
  match ProcessLog v chain with
  | inl _ => true
  | inr _ => false
  end.

(** The line [processNode] writes about one raw log, if any. *)
Definition diagnosticsOf {Value Result Msg Err : Type}
    `{!EvmResult Result Msg, !LogDecoder Value Result Err}
    (chain : Address) (v : Value) : list (Diagnostic Err) :=
  match ProcessLog v chain with
  | inr err => [InvalidEvmResult err]
  | inl r => match AsRevert r with
             | Some returnVal => [RevertOccurred returnVal]
             | None => []
             end
  end.

Definition isInvalidEvmResult {Err : Type} (d : Diagnostic Err) : bool :=
  match d with
  | InvalidEvmResult _ => true
  | RevertOccurred _ => false
  end.

(** ** A small instance on which the definitions can be run *)

Module Sample.

(** Raw values are numbers; the value hash is the low byte of the number,
    left-padded to 32 bytes. *)
Definition lowByte (n : N) : byte := default "000"%byte (Byte.of_N (n mod 256)).
Definition pad32 (b : byte) : Hash := replicate 31 "000"%byte ++ [b].

#[global] Instance values : ValueOps N :=
  {| Value_Hash v := pad32 (lowByte v); Value_Eq := N.eqb |}.

(** A stand-in digest: the sum of the bytes modulo 256. *)
#[global] Instance digest : HashPrimitive :=
  {| keccak256 bs := pad32 (lowByte (foldr (λ b s, Byte.to_N b + s) 0 bs)) |}.

Record result := mkResult {
  res_Msg : Hash;
  res_Logs : list Log;
  res_Revert : option (list byte)
}.

#[global] Instance results : EvmResult result Hash :=
  {| GetEthMsg := res_Msg; GetLogs := res_Logs; AsRevert := res_Revert;
     Msg_TxHash m := m |}.

(** Odd values do not decode; values that are 2 modulo 4 decode to a
    revert. *)
#[global] Instance decoder : LogDecoder N result string :=
  {| ProcessLog v chain :=
       if N.odd v then inr "invalid"%string
       else inl (mkResult (pad32 (lowByte (v + 100)))
                   [mkLog chain [pad32 (lowByte v)] []]
                   (if decide (v mod 4 = 2) then Some [] else None)) |}.

Definition chain : Address := replicate 20 "001"%byte.

(** A valid node with three raw logs, the second of which does not decode. *)
Definition validNode : Node N :=
  mkNode (pad32 "007"%byte) 5 ValidChildType (pad32 "009"%byte)
    (mkAssertion [10; 11] [0; 1; 2]).

(** A node on another branch of the tree. *)
Definition otherNode : Node N :=
  mkNode (pad32 "008"%byte) 6 (OtherChildType 2) (pad32 "010"%byte)
    (mkAssertion [] []).

(** The same node, created by another layer-1 transaction. *)
Definition resubmittedNode : Node N :=
  mkNode (pad32 "007"%byte) 5 ValidChildType (pad32 "011"%byte)
    (mkAssertion [10; 11] [0; 1; 2]).

(** A valid node all of whose raw logs decode. *)
Definition cleanNode : Node N :=
  mkNode (pad32 "012"%byte) 7 ValidChildType (pad32 "013"%byte)
    (mkAssertion [] [0; 2; 4]).

(** The group that the third raw log of [validNode] decodes to. *)
Definition thirdLogGroup : logsInfo :=
  mkLogsInfo [mkLog chain [pad32 "002"%byte] []] 2 (pad32 "102"%byte).

(** A stand-in filter: the number of logs, as one byte. *)
#[global] Instance blooms : BloomOps N (list byte) :=
  {| LogsBloom ls := N.of_nat (length ls);
     Big_Bytes n := [lowByte n];
     BytesToBloom bs := bs |}.

Definition validInfo : nodeInfo N := (processNode validNode chain).1.

End Sample.

(** ** Loops *)

Lemma range_from_app {A S : Type} (body : nat → A → S → S) i (l1 l2 : list A) s :
  range_from body i (l1 ++ l2) s
  = range_from body (i + length l1)%nat l2 (range_from body i l1 s).
Proof.
  revert i s. induction l1 as [|x l1 IH]; intros i s; simpl.
  - by rewrite Nat.add_0_r.
  - rewrite IH. f_equal. lia.
Qed.

(** ** Hexadecimal encoding is injective *)

Lemma unhex_byte (x : byte) :
  Byte.of_N (16 * hexVal (hexDigit (Byte.to_N x / 16))
             + hexVal (hexDigit (Byte.to_N x mod 16))) = Some x.
Proof. by destruct x. Qed.

Lemma unhexBytes_hexBytes (b : list byte) : unhexBytes (hexBytes b) = b.
Proof.
  induction b as [|x b IH]; [done|].
  cbn [hexBytes unhexBytes]. by rewrite unhex_byte, IH.
Qed.

Lemma Encode_inj (b1 b2 : list byte) : Encode b1 = Encode b2 → b1 = b2.
Proof.
  unfold Encode. intros Heq.
  rewrite <- (unhexBytes_hexBytes b1), <- (unhexBytes_hexBytes b2).
  congruence.
Qed.

(** ** Lists *)

Lemma elem_of_concat {A : Type} (x : A) (ls : list (list A)) :
  x ∈ concat ls ↔ ∃ l, x ∈ l ∧ l ∈ ls.
Proof.
  rewrite list_elem_of_In, in_concat. split.
  - intros (l & Hl & Hx). exists l. by rewrite !list_elem_of_In.
  - intros (l & Hx & Hl). exists l. by rewrite <- !list_elem_of_In.
Qed.

Lemma filter_none {A : Type} (P : A → Prop) `{!∀ x, Decision (P x)} (l : list A) :
  (∀ x, x ∈ l → ¬ P x) → filter P l = [].
Proof.
  induction l as [|x l IH]; intros Hl; [done|].
  rewrite filter_cons_False by (apply Hl; left).
  apply IH. intros y Hy. apply Hl. by right.
Qed.

Lemma filter_all {A : Type} (P : A → Prop) `{!∀ x, Decision (P x)} (l : list A) :
  (∀ x, x ∈ l → P x) → filter P l = l.
Proof.
  induction l as [|x l IH]; intros Hl; [done|].
  rewrite filter_cons_True by (apply Hl; left).
  f_equal. apply IH. intros y Hy. apply Hl. by right.
Qed.

Section Derivation.
Context {Value Result Msg Err : Type}.
Context `{!ValueOps Value, !HashPrimitive, !EvmResult Result Msg,
          !LogDecoder Value Result Err}.
Implicit Types (node : Node Value) (ni : nodeInfo Value) (chain : Address).

(** The first loop appends one value hash and one accumulator per raw log
    and touches nothing else. *)
Lemma accLoop_spec i (logs : list Value) acc ni :
  (range_from accBody i logs (acc, ni)).2
  = set_AVMLogsAccHashes
      (set_AVMLogsValHashes ni
         (AVMLogsValHashes ni ++ ((λ v, Encode (Value_Hash v)) <$> logs)))
      (AVMLogsAccHashes ni ++ (Encode <$> accChain acc logs)).
Proof.
  revert i acc ni. induction logs as [|v logs IH]; intros i acc ni.
  - destruct ni; simpl. by rewrite !app_nil_r.
  - cbn [range_from accBody]. rewrite IH. destruct ni; simpl.
    unfold set_AVMLogsAccHashes, set_AVMLogsValHashes; simpl.
    by rewrite <- !app_assoc.
Qed.

(** The second loop appends the decoded groups and their transaction hashes
    and touches nothing else. *)
Lemma evmLoop_spec chain i (logs : list Value) ni (trace : list (Diagnostic Err)) :
  (range_from (evmBody chain) i logs (ni, trace)).1
  = set_EVMTransactionHashes
      (set_EVMLogs ni
         (EVMLogs ni ++ concat (imap (λ j, decodedGroup chain (i + j)) logs)))
      (EVMTransactionHashes ni
         ++ (li_TxHash <$> concat (imap (λ j, decodedGroup chain (i + j)) logs))).
Proof.
  revert i ni trace. induction logs as [|v logs IH]; intros i ni trace.
  - destruct ni; simpl. by rewrite !app_nil_r.
  - cbn [range_from evmBody]. rewrite imap_cons. cbn [concat].
    assert (imap ((λ j, decodedGroup chain (i + j)) ∘ S) logs
            = imap (λ j, decodedGroup chain (i + 1 + j)) logs) as ->.
    { apply imap_ext; intros j w _; simpl. f_equal. lia. }
    rewrite Nat.add_0_r. unfold decodedGroup at 1 3.
    destruct (ProcessLog v chain) as [r|e]; rewrite IH.
    + destruct ni; simpl.
      unfold set_EVMTransactionHashes, set_EVMLogs; simpl.
      by rewrite <- !app_assoc.
    + done.
Qed.

(** The record derived from a valid node, in closed form. *)
Lemma processNode_valid node chain :
  Node_LinkType node = ValidChildType →
  (processNode node chain).1
  = mkNodeInfo
      (concat (imap (decodedGroup chain) (Logs (Node_Assertion node))))
      (li_TxHash <$> concat (imap (decodedGroup chain) (Logs (Node_Assertion node))))
      (Logs (Node_Assertion node))
      (OutMsgs (Node_Assertion node))
      (Encode <$> accChain zeroHash (Logs (Node_Assertion node)))
      ((λ v, Encode (Value_Hash v)) <$> Logs (Node_Assertion node))
      (Node_Hash node) (Node_Depth node) (Node_AssertionTxHash node).
Proof.
  intros Hvalid. unfold processNode.
  destruct (decide _) as [Hne|_]; [done|].
  unfold range.
  destruct (range_from accBody _ _ _) as [acc ni] eqn:Hacc.
  rewrite evmLoop_spec.
  assert (ni = (range_from accBody 0 (Logs (Node_Assertion node))
                  (zeroHash,
                   set_AVMLogsAccHashes (set_AVMLogsValHashes (set_AVMLogs
                     (set_AVMMessages (set_L1TxHash (set_NodeHeight
                       (set_NodeHash newNodeInfo (Node_Hash node))
                       (Node_Depth node)) (Node_AssertionTxHash node))
                       (OutMsgs (Node_Assertion node)))
                     (Logs (Node_Assertion node))) []) [])).2) as ->
    by (by rewrite Hacc).
  rewrite accLoop_spec. simpl. done.
Qed.

(** The record derived from any other node. *)
Lemma processNode_other node chain :
  Node_LinkType node ≠ ValidChildType →
  processNode node chain
  = (mkNodeInfo [] [] [] [] [] [] (Node_Hash node) (Node_Depth node)
       (Node_AssertionTxHash node), []).
Proof.
  intros Hne. unfold processNode. by destruct (decide _).
Qed.

Lemma accChain_length acc (logs : list Value) :
  length (accChain acc logs) = length logs.
Proof. revert acc. induction logs; intros acc; simpl; by f_equal. Qed.

(** Each accumulator is the hash of its predecessor and the value hash at
    the same index; the predecessor of the first one is [acc]. *)
Lemma accChain_lookup acc (logs : list Value) (i : nat) v :
  logs !! i = Some v →
  ∃ prev : Hash,
    match i with
    | O => prev = acc
    | S j => accChain acc logs !! j = Some prev
    end
    ∧ accChain acc logs !! i
      = Some (SoliditySHA3 [Bytes32 prev; Bytes32 (Value_Hash v)]).
Proof.
  revert acc i. induction logs as [|w logs IH]; intros acc i Hi; [done|].
  destruct i as [|i]; simpl in *.
  - injection Hi as ->. by exists acc.
  - destruct (IH (SoliditySHA3 [Bytes32 acc; Bytes32 (Value_Hash w)]) i Hi)
      as (prev & Hprev & Hacc).
    exists prev. split; [|done]. destruct i; simpl; [by subst|done].
Qed.

(** Every group that comes out of the raw logs from position [k] on carries
    the index of a raw log at or after [k]. *)
Lemma decodedGroups_elem chain k (logs : list Value) g :
  g ∈ concat (imap (λ j, decodedGroup chain (k + j)) logs) →
  ∃ (j : nat) v, logs !! j = Some v ∧ g ∈ decodedGroup chain (k + j) v.
Proof.
  intros Hg. apply elem_of_concat in Hg as (gs & Hg & Hgs).
  apply elem_of_lookup_imap_1 in Hgs as (j & v & -> & Hj). eauto.
Qed.

Lemma decodedGroup_index chain (i : nat) (v : Value) g :
  g ∈ decodedGroup chain i v → li_TxIndex g = N.of_nat i.
Proof.
  unfold decodedGroup. destruct (ProcessLog v chain); [|by intros ?%elem_of_nil].
  by intros ->%list_elem_of_singleton.
Qed.

Lemma decodedGroups_shift chain k (logs : list Value) :
  imap ((λ j, decodedGroup chain (k + j)) ∘ S) logs
  = imap (λ j, decodedGroup chain (S k + j)) logs.
Proof. apply imap_ext; intros j w _; simpl. f_equal. lia. Qed.

Lemma decodedGroups_filter chain k (logs : list Value) (i : nat) v :
  logs !! i = Some v →
  filter (λ g, li_TxIndex g = N.of_nat (k + i))
    (concat (imap (λ j, decodedGroup chain (k + j)) logs))
  = decodedGroup chain (k + i) v.
Proof.
  revert k i. induction logs as [|w logs IH]; intros k i Hi; [done|].
  rewrite imap_cons, decodedGroups_shift. cbn [concat].
  rewrite list.filter_app, Nat.add_0_r. destruct i as [|i]; simpl in Hi.
  - injection Hi as ->. rewrite Nat.add_0_r.
    rewrite (filter_none _ (concat _)), app_nil_r.
    + apply filter_all. intros g. apply decodedGroup_index.
    + intros g (j & u & _ & Hg%decodedGroup_index)%decodedGroups_elem. lia.
  - rewrite filter_none.
    + replace (k + S i)%nat with (S k + i)%nat by lia. by apply IH.
    + intros g Hg%decodedGroup_index. lia.
Qed.

(** The recorded indices of the groups increase strictly. *)
Lemma decodedGroups_sorted chain k (logs : list Value) :
  StronglySorted N.lt
    (li_TxIndex <$> concat (imap (λ j, decodedGroup chain (k + j)) logs)).
Proof.
  revert k. induction logs as [|w logs IH]; intros k; [constructor|].
  rewrite imap_cons, decodedGroups_shift. cbn [concat].
  rewrite fmap_app, Nat.add_0_r. unfold decodedGroup at 1.
  destruct (ProcessLog w chain) as [r|e]; simpl; [|exact (IH (S k))].
  constructor; [exact (IH (S k))|].
  apply Forall_forall. intros n (g & -> & Hg)%list_elem_of_fmap.
  apply (decodedGroups_elem chain (S k)) in Hg
    as (j & u & _ & ->%decodedGroup_index). lia.
Qed.

(** The second loop writes one line per raw log that does not decode and
    one per raw log that decodes to a revert, in order. *)
Lemma evmLoop_trace chain i (logs : list Value) ni (trace : list (Diagnostic Err)) :
  (range_from (evmBody chain) i logs (ni, trace)).2
  = trace ++ concat ((λ v, match ProcessLog v chain with
                           | inr err => [InvalidEvmResult err]
                           | inl r => match AsRevert r with
                                      | Some returnVal => [RevertOccurred returnVal]
                                      | None => []
                                      end
                           end) <$> logs).
Proof.
  revert i ni trace. induction logs as [|v logs IH]; intros i ni trace.
  - simpl. by rewrite app_nil_r.
  - cbn [range_from evmBody]. rewrite fmap_cons. cbn [concat].
    destruct (ProcessLog v chain) as [r|e]; rewrite IH.
    + destruct (AsRevert r); [by rewrite <- app_assoc|done].
    + by rewrite <- app_assoc.
Qed.

(** ** Derivation: the claims *)

(** C8. A node whose link type is not [ValidChildType] yields a record whose
    raw logs, raw messages, value hashes, accumulator hashes, groups and
    transaction hashes are all empty, while the node hash, the height and the
    layer-1 transaction hash are the node's hash, depth and assertion
    transaction hash. *)
Theorem processNode_not_valid node chain :
  Node_LinkType node ≠ ValidChildType →
  let ni := (processNode node chain).1 in
  AVMLogs ni = [] ∧ AVMMessages ni = []
  ∧ AVMLogsValHashes ni = [] ∧ AVMLogsAccHashes ni = []
  ∧ EVMLogs ni = [] ∧ EVMTransactionHashes ni = []
  ∧ NodeHash ni = Node_Hash node
  ∧ NodeHeight ni = Node_Depth node
  ∧ L1TxHash ni = Node_AssertionTxHash node.
Proof.
  intros Hne. rewrite processNode_other by done. simpl. repeat split.
Qed.

(** C1. For a valid node the value hashes and the accumulator hashes have
    the length of the raw logs, which are the assertion's logs in order; at
    every index [i] the value hash is the encoded hash of the raw log, and the
    accumulator hash is the encoding of [H(prev || value hash)], where [prev]
    is the zero hash for [i = 0] and the digest encoded at index [i - 1]
    otherwise. *)
Theorem processNode_log_hashes node chain :
  Node_LinkType node = ValidChildType →
  let ni := (processNode node chain).1 in
  AVMLogs ni = Logs (Node_Assertion node)
  ∧ length (AVMLogsValHashes ni) = length (AVMLogs ni)
  ∧ length (AVMLogsAccHashes ni) = length (AVMLogs ni)
  ∧ ∀ (i : nat) v, AVMLogs ni !! i = Some v →
      AVMLogsValHashes ni !! i = Some (Encode (Value_Hash v))
      ∧ ∃ prev : Hash,
          match i with
          | O => prev = zeroHash
          | S j => AVMLogsAccHashes ni !! j = Some (Encode prev)
          end
          ∧ AVMLogsAccHashes ni !! i
            = Some (Encode (SoliditySHA3 [Bytes32 prev; Bytes32 (Value_Hash v)])).
Proof.
  intros Hvalid. rewrite processNode_valid by done.
  cbn [fst AVMLogs AVMLogsValHashes AVMLogsAccHashes].
  split; [done|]. split; [by rewrite length_fmap|].
  split; [by rewrite length_fmap, accChain_length|].
  intros i v Hi. split; [by rewrite list_lookup_fmap, Hi|].
  destruct (accChain_lookup zeroHash _ i v Hi) as (prev & Hprev & Hacc).
  exists prev. split.
  - destruct i; [done|]. rewrite list_lookup_fmap. unfold Hash in *. by rewrite Hprev.
  - rewrite list_lookup_fmap. unfold Hash in *. by rewrite Hacc.
Qed.

(** C3. For a valid node the raw logs of the record are the logs of the
    node's assertion, and the groups are obtained from those logs in order:
    an index whose raw log does not decode contributes nothing, an index whose
    raw log decodes (whatever the variant of the result) contributes exactly
    one group, made of the decoded logs, the index itself and the transaction
    hash of the decoded message; the transaction hashes are those of the
    groups, in the same order.  The function is total: no error reaches the
    caller. *)
Theorem processNode_decoding node chain :
  Node_LinkType node = ValidChildType →
  let ni := (processNode node chain).1 in
  let logs := Logs (Node_Assertion node) in
  AVMLogs ni = logs
  ∧ EVMLogs ni = concat (imap (decodedGroup chain) logs)
  ∧ EVMTransactionHashes ni = li_TxHash <$> EVMLogs ni
  ∧ ∀ (i : nat) v, logs !! i = Some v →
      filter (λ g, li_TxIndex g = N.of_nat i) (EVMLogs ni)
      = match ProcessLog v chain with
        | inr _ => []
        | inl r => [mkLogsInfo (GetLogs r) (N.of_nat i) (Msg_TxHash (GetEthMsg r))]
        end.
Proof.
  intros Hvalid. rewrite processNode_valid by done. simpl.
  split; [done|]. split; [done|]. split; [done|]. intros i v Hi.
  exact (decodedGroups_filter chain 0 _ i v Hi).
Qed.

(** C10. The transaction indices recorded in the groups of a derived record
    increase strictly, whether or not some raw logs failed to decode. *)
Theorem processNode_tx_indices_increasing node chain :
  StronglySorted N.lt (li_TxIndex <$> EVMLogs (processNode node chain).1).
Proof.
  destruct (decide (Node_LinkType node = ValidChildType)) as [Hvalid|Hne].
  - rewrite processNode_valid by done. simpl.
    exact (decodedGroups_sorted chain 0 _).
  - rewrite processNode_other by done. constructor.
Qed.

End Derivation.

(** ** The transaction view *)

Lemma wrap64_small n : n < 2 ^ 64 → wrap64 n = n.
Proof. apply N.mod_small. Qed.

Lemma sub64_one n : 0 < n → n < 2 ^ 64 → sub64 n 1 = n - 1.
Proof.
  intros Hpos Hlt. unfold sub64, wrap64.
  replace (n + 2 ^ 64 - 1) with (n - 1 + 1 * 2 ^ 64) by lia.
  rewrite N.Div0.mod_add. apply N.mod_small. lia.
Qed.

Section TxView.
Context {Value : Type}.
Implicit Types (ni : nodeInfo Value) (txHash : Hash) (txIndex : N).

(** On a well-formed record and an index within the raw logs, [getTxInfo]
    returns, and this is what it returns. *)
Lemma getTxInfo_wf txHash ni txIndex :
  nodeInfo_wf ni →
  txIndex < N.of_nat (length (AVMLogs ni)) →
  ∃ rawVal post pre,
    AVMLogs ni !! N.to_nat txIndex = Some rawVal
    ∧ list.last (AVMLogsAccHashes ni) = Some post
    ∧ (if decide (txIndex = 0) then pre = Encode zeroHash
       else AVMLogsAccHashes ni !! (N.to_nat txIndex - 1)%nat = Some pre)
    ∧ getTxInfo txHash ni txIndex
      = Some (mkTxInfo true (NodeHeight ni) (NodeHash ni) txHash txIndex
                rawVal pre post
                (drop (N.to_nat txIndex + 1) (AVMLogsValHashes ni))
                (L1TxHash ni)).
Proof.
  intros (Hval & Hacc & Hlen) Hidx.
  assert (2 ^ 63 < 2 ^ 64) as Hpow by done.
  destruct (lookup_lt_is_Some_2 (AVMLogs ni) (N.to_nat txIndex)) as [rawVal Hraw];
    [lia|].
  destruct (lookup_lt_is_Some_2 (AVMLogsAccHashes ni)
              (length (AVMLogsAccHashes ni) - 1)) as [post Hpost]; [lia|].
  assert (∃ pre,
            (if decide (0 < txIndex)
             then index (AVMLogsAccHashes ni) (sub64 txIndex 1)
             else Some (Encode zeroHash)) = Some pre
            ∧ (if decide (txIndex = 0) then pre = Encode zeroHash
               else AVMLogsAccHashes ni !! (N.to_nat txIndex - 1)%nat = Some pre))
    as (pre & Hpre & Hpre').
  { destruct (decide (0 < txIndex)) as [Hpos|Hzero].
    - unfold index. rewrite sub64_one by lia.
      replace (N.to_nat (txIndex - 1)) with (N.to_nat txIndex - 1)%nat by lia.
      destruct (lookup_lt_is_Some_2 (AVMLogsAccHashes ni)
                  (N.to_nat txIndex - 1)) as [pre Hpre]; [lia|].
      exists pre. split; [done|]. destruct (decide (txIndex = 0)); [lia|done].
    - exists (Encode zeroHash). split; [done|].
      destruct (decide (txIndex = 0)); [done|lia]. }
  exists rawVal, post, pre. split; [done|].
  split; [by rewrite last_lookup, <- Hpost; f_equal; lia|].
  split; [done|].
  unfold getTxInfo.
  destruct (decide (0 < length (AVMLogsAccHashes ni))%nat); [|lia].
  rewrite Hpost. cbn [mbind option_bind]. rewrite Hpre. cbn [mbind option_bind].
  unfold sliceFrom, index. rewrite wrap64_small by lia.
  replace (N.to_nat (txIndex + 1)) with (N.to_nat txIndex + 1)%nat by lia.
  destruct (decide (N.to_nat txIndex + 1 ≤ length (AVMLogsValHashes ni))%nat);
    [|lia].
  cbn [mbind option_bind]. by rewrite Hraw.
Qed.

(** C4. On a well-formed record and an index within the raw logs,
    [getTxInfo] returns a view whose [LogsPostHash] is the last accumulator
    hash when there is one and the encoded zero hash otherwise, whatever the
    index, and whose [LogsPreHash] is the encoded zero hash at index 0 and the
    accumulator hash at the preceding index otherwise. *)
Theorem getTxInfo_pre_post_hash txHash ni txIndex :
  nodeInfo_wf ni →
  txIndex < N.of_nat (length (AVMLogs ni)) →
  ∃ ti,
    getTxInfo txHash ni txIndex = Some ti
    ∧ LogsPostHash ti
      = default (Encode zeroHash) (list.last (AVMLogsAccHashes ni))
    ∧ (if decide (txIndex = 0) then LogsPreHash ti = Encode zeroHash
       else AVMLogsAccHashes ni !! (N.to_nat txIndex - 1)%nat
            = Some (LogsPreHash ti)).
Proof.
  intros Hwf Hidx.
  destruct (getTxInfo_wf txHash ni txIndex Hwf Hidx)
    as (rawVal & post & pre & _ & Hpost & Hpre & ->).
  eexists. split; [done|]. cbn [LogsPostHash LogsPreHash].
  by rewrite Hpost.
Qed.

(** C5, as the code has it.  On a well-formed record and an index within
    the raw logs, the [LogsValHashes] of the view are the value hashes
    strictly after the transaction's own: entry [k] of the view is entry
    [txIndex + 1 + k] of the record. *)
Theorem getTxInfo_val_hashes_after_own txHash ni txIndex :
  nodeInfo_wf ni →
  txIndex < N.of_nat (length (AVMLogs ni)) →
  ∃ ti,
    getTxInfo txHash ni txIndex = Some ti
    ∧ length (LogsValHashes ti)
      = (length (AVMLogsValHashes ni) - (N.to_nat txIndex + 1))%nat
    ∧ ∀ k : nat,
        LogsValHashes ti !! k
        = AVMLogsValHashes ni !! (N.to_nat txIndex + 1 + k)%nat.
Proof.
  intros Hwf Hidx.
  destruct (getTxInfo_wf txHash ni txIndex Hwf Hidx)
    as (rawVal & post & pre & _ & _ & _ & ->).
  eexists. split; [done|]. cbn [LogsValHashes].
  split; [apply length_drop|]. intros k. apply lookup_drop.
Qed.

(** C6. On a well-formed record and an index within the raw logs, the
    [LogsValHashes] of the view are [AVMLogsValHashes[txIndex+1:]]; for the
    last index this is the empty sequence. *)
Theorem getTxInfo_val_hashes_suffix txHash ni txIndex :
  nodeInfo_wf ni →
  txIndex < N.of_nat (length (AVMLogs ni)) →
  ∃ ti,
    getTxInfo txHash ni txIndex = Some ti
    ∧ LogsValHashes ti = drop (N.to_nat txIndex + 1) (AVMLogsValHashes ni)
    ∧ ((N.to_nat txIndex + 1)%nat = length (AVMLogs ni) → LogsValHashes ti = []).
Proof.
  intros Hwf Hidx.
  destruct (getTxInfo_wf txHash ni txIndex Hwf Hidx)
    as (rawVal & post & pre & _ & _ & _ & ->).
  eexists. split; [done|]. cbn [LogsValHashes]. split; [done|].
  intros Hlast. apply drop_ge. destruct Hwf as (-> & _). lia.
Qed.

End TxView.

(** ** Log queries *)

Lemma addressMatches_spec l addresses :
  addressMatches l addresses = true
  ↔ addresses = [] ∨ Log_Address l ∈ addresses.
Proof.
  unfold addressMatches. destruct addresses as [|a addresses].
  - split; [by left|done].
  - rewrite bool_decide_eq_true. split; [by right|by intros [?|?]].
Qed.

Lemma topicsMatch_spec logTopics topics :
  topicsMatch logTopics topics = true
  ↔ ∀ (k : nat) topicGroup, topics !! k = Some topicGroup →
      ∃ t, logTopics !! k = Some t ∧ (topicGroup = [] ∨ t ∈ topicGroup).
Proof.
  revert logTopics. induction topics as [|tg topics IH]; intros logTopics.
  - split; [intros _ k ? Hk; discriminate Hk | done].
  - destruct logTopics as [|t logTopics]; cbn [topicsMatch].
    + split; [done|]. intros Hall.
      destruct (Hall 0%nat tg eq_refl) as (t & Ht & _). done.
    + rewrite andb_true_iff, IH. split.
      * intros [Hhead Htail] [|k] g Hk; simpl in Hk.
        -- injection Hk as <-. exists t. split; [done|].
           destruct tg; [by left|right]. by apply bool_decide_eq_true in Hhead.
        -- by apply Htail.
      * intros Hall. split.
        -- destruct (Hall 0%nat tg eq_refl) as (t' & [= <-] & [->|Hin]); [done|].
           destruct tg; [done|]. by apply bool_decide_eq_true.
        -- intros k g Hk. exact (Hall (S k) g Hk).
Qed.

Section Queries.
Context {Value : Type}.
Implicit Types (ni : nodeInfo Value).

Lemma FindLogs_inner addresses topics (g : logsInfo) i (ls : list Log) acc :
  range_from (λ _ evmLog logs,
      if MatchesQuery evmLog addresses topics
      then logs ++ [mkLogResponse evmLog (li_TxIndex g) (li_TxHash g)]
      else logs) i ls acc
  = acc ++ ((λ l, mkLogResponse l (li_TxIndex g) (li_TxHash g))
              <$> filter (λ l, MatchesQuery l addresses topics) ls).
Proof.
  revert i acc. induction ls as [|l ls IH]; intros i acc; simpl.
  - by rewrite app_nil_r.
  - rewrite IH. destruct (MatchesQuery l addresses topics) eqn:Hm.
    + rewrite filter_cons_True by by apply Is_true_true_2.
      by rewrite fmap_cons, <- app_assoc.
    + by rewrite filter_cons_False by by apply Is_true_false_2.
Qed.

(** C9. [FindLogs] returns, group after group and log after log, one
    response for every log that [MatchesQuery] accepts, carrying the
    transaction index and hash of the log's group; nothing is dropped, merged
    or reordered.  [MatchesQuery] accepts a log exactly when its address is
    among [addresses] or [addresses] is empty, and every position of [topics]
    has a topic of the log at the same position that is in the set there or
    the set is empty. *)
Theorem FindLogs_spec ni addresses topics :
  FindLogs ni addresses topics
  = concat (groupResponses addresses topics <$> EVMLogs ni)
  ∧ ∀ l : Log,
      MatchesQuery l addresses topics = true
      ↔ (addresses = [] ∨ Log_Address l ∈ addresses)
        ∧ ∀ (k : nat) topicGroup, topics !! k = Some topicGroup →
            ∃ t, Log_Topics l !! k = Some t
                 ∧ (topicGroup = [] ∨ t ∈ topicGroup).
Proof.
  split.
  - unfold FindLogs, range.
    enough (∀ gs i acc,
      range_from (λ _ txLogs logs,
          range (λ _ evmLog logs,
              if MatchesQuery evmLog addresses topics
              then logs ++ [mkLogResponse evmLog (li_TxIndex txLogs)
                              (li_TxHash txLogs)]
              else logs) (li_Logs txLogs) logs) i gs acc
      = acc ++ concat (groupResponses addresses topics <$> gs)) as Houter
      by apply (Houter (EVMLogs ni) 0%nat []).
    induction gs as [|g gs IH]; intros i acc; simpl.
    + by rewrite app_nil_r.
    + rewrite IH. unfold range. rewrite FindLogs_inner.
      by rewrite <- app_assoc.
  - intros l. unfold MatchesQuery.
    by rewrite andb_true_iff, addressMatches_spec, topicsMatch_spec.
Qed.

End Queries.

(** ** The bloom filter input *)

Lemma wrap64_succ n : wrap64 (wrap64 n + 1) = wrap64 (n + 1).
Proof. unfold wrap64. by rewrite N.Div0.add_mod_idemp_l. Qed.

Section Bloom.
Context {Value : Type}.
Implicit Types (ni : nodeInfo Value).

Lemma bloom_inner ni i g j (ls : list Log) acc (n : nat) :
  range_from (bloomBody ni i g) j ls (acc, wrap64 (N.of_nat n))
  = (acc ++ imap (λ m x, set_Index x (wrap64 (N.of_nat (n + m))))
              ((λ l, ToEVMLog (mkFullLog l (N.of_nat i) (li_TxHash g)
                                 (NodeHeight ni) (NodeHash ni))) <$> ls),
     wrap64 (N.of_nat (n + length ls))).
Proof.
  revert j acc n. induction ls as [|l ls IH]; intros j acc n.
  - simpl. by rewrite app_nil_r, Nat.add_0_r.
  - cbn [range_from bloomBody]. rewrite wrap64_succ.
    replace (N.of_nat n + 1) with (N.of_nat (n + 1)) by lia.
    rewrite IH, fmap_cons, imap_cons, <- app_assoc. cbn [app length].
    rewrite Nat.add_0_r. f_equal; [|f_equal; lia].
    do 2 f_equal. apply imap_ext. intros m x _. simpl. do 3 f_equal. lia.
Qed.

Lemma bloom_outer ni i (gs : list logsInfo) acc :
  (range_from (λ i logsInfo st,
       range (bloomBody ni i logsInfo) (li_Logs logsInfo) st)
     i gs (acc, wrap64 (N.of_nat (length acc)))).1
  = acc ++ imap (λ m x, set_Index x (wrap64 (N.of_nat (length acc + m))))
             (concat (imap (λ k, bloomTagged ni (i + k)) gs)).
Proof.
  revert i acc. induction gs as [|g gs IH]; intros i acc.
  - simpl. by rewrite app_nil_r.
  - cbn [range_from]. unfold range. rewrite bloom_inner.
    rewrite imap_cons. cbn [concat]. rewrite imap_app, Nat.add_0_r.
    fold (bloomTagged ni i g).
    assert (length acc + length (li_Logs g)
            = length (acc ++ imap (λ m x, set_Index x
                         (wrap64 (N.of_nat (length acc + m))))
                        (bloomTagged ni i g)))%nat as ->.
    { rewrite length_app, length_imap. unfold bloomTagged.
      by rewrite length_fmap. }
    rewrite IH, <- app_assoc. do 2 f_equal.
    rewrite length_app, length_imap.
    assert (imap ((λ k, bloomTagged ni (i + k)) ∘ S) gs
            = imap (λ k, bloomTagged ni (i + 1 + k)) gs) as ->.
    { apply imap_ext. intros k x _. simpl. f_equal. lia. }
    apply imap_ext. intros m x _. simpl. do 3 f_equal. lia.
Qed.

(** The logs handed to [types.LogsBloom]: every log of every group in
    order, tagged with the node's hash and height, the transaction hash of
    its group and the position of its group in [EVMLogs]; the log index
    counts all logs from 0 (modulo [2^64]) and is not reset between groups. *)
Lemma bloomLogs_spec ni :
  (bloomLogs ni).1
  = imap (λ m x, set_Index x (wrap64 (N.of_nat m)))
      (concat (imap (bloomTagged ni) (EVMLogs ni))).
Proof.
  unfold bloomLogs, range.
  exact (bloom_outer ni 0 (EVMLogs ni) []).
Qed.

End Bloom.

(** ** Structural comparison *)

Lemma slicesEqual_from_spec {A : Type} (same : A → A → bool) i (a b : list A) :
  (i + length a)%nat = length b →
  slicesEqual_from same i a b = true
  ↔ Forall2 (λ x y, same x y = true) a (drop i b).
Proof.
  revert i. induction a as [|t a IH]; intros i Hlen; simpl in *.
  - rewrite drop_ge by lia. split; [constructor|done].
  - destruct (lookup_lt_is_Some_2 b i) as [u Hu]; [lia|].
    rewrite Hu, (drop_S _ _ _ Hu). destruct (same t u) eqn:Heq; simpl.
    + rewrite IH by lia. replace (i + 1)%nat with (S i) by lia. split.
      * by constructor.
      * by intros (_ & ?)%Forall2_cons.
    + split; [done|]. intros (? & _)%Forall2_cons. congruence.
Qed.

Lemma slicesEqual_spec {A : Type} (same : A → A → bool) (a b : list A) :
  slicesEqual same a b = true ↔ Forall2 (λ x y, same x y = true) a b.
Proof.
  unfold slicesEqual. destruct (length a =? length b)%nat eqn:Hlen; simpl.
  - apply Nat.eqb_eq in Hlen. by rewrite slicesEqual_from_spec.
  - apply Nat.eqb_neq in Hlen. split; [done|].
    by intros ?%Forall2_length.
Qed.

Lemma slicesEqual_eq {A : Type} (same : A → A → bool) (a b : list A) :
  (∀ x y, same x y = true ↔ x = y) →
  slicesEqual same a b = true ↔ a = b.
Proof.
  intros Heq. rewrite slicesEqual_spec, list_eq_Forall2.
  split; intros Hall; (eapply Forall2_impl; [exact Hall|]);
    intros x y; apply Heq.
Qed.

Lemma logsInfo_Equals_eq (a b : logsInfo) : logsInfo_Equals a b = true ↔ a = b.
Proof.
  unfold logsInfo_Equals.
  rewrite !andb_true_iff, !bool_decide_eq_true, slicesEqual_eq
    by (intros; apply bool_decide_eq_true).
  destruct a, b; simpl. split; [by intros [[-> ->] ->]|by intros [= -> -> ->]].
Qed.

Section Comparison.
Context {Value : Type} `{!ValueOps Value}.
Implicit Types (ni o : nodeInfo Value).

(** [Equals] never reads [L1TxHash]. *)
Lemma Equals_set_L1TxHash ni o h h' :
  Equals (set_L1TxHash ni h) (set_L1TxHash o h') = Equals ni o.
Proof. done. Qed.

(** When [value.Eq] decides equality of values, [Equals] decides equality
    of all fields but [L1TxHash]. *)
Lemma Equals_spec ni o :
  (∀ x y : Value, Value_Eq x y = true ↔ x = y) →
  Equals ni o = true
  ↔ EVMLogs ni = EVMLogs o
    ∧ EVMTransactionHashes ni = EVMTransactionHashes o
    ∧ AVMLogs ni = AVMLogs o
    ∧ AVMMessages ni = AVMMessages o
    ∧ AVMLogsAccHashes ni = AVMLogsAccHashes o
    ∧ AVMLogsValHashes ni = AVMLogsValHashes o
    ∧ NodeHash ni = NodeHash o
    ∧ NodeHeight ni = NodeHeight o.
Proof.
  intros Hval. unfold Equals, logSlicesEqual, hashSlicesEqual,
    valueSlicesEqual, stringSlicesEqual.
  rewrite !andb_true_iff, !bool_decide_eq_true.
  rewrite (slicesEqual_eq logsInfo_Equals) by apply logsInfo_Equals_eq.
  rewrite !(slicesEqual_eq Value_Eq) by done.
  rewrite !(slicesEqual_eq (λ t u, bool_decide (t = u)))
    by (intros; apply bool_decide_eq_true).
  tauto.
Qed.

End Comparison.

(** ** Derived records are well formed *)

Lemma processNode_wf {Value Result Msg Err : Type}
    `{!ValueOps Value, !HashPrimitive, !EvmResult Result Msg,
      !LogDecoder Value Result Err} (node : Node Value) (chain : Address) :
  N.of_nat (length (Logs (Node_Assertion node))) < 2 ^ 63 →
  nodeInfo_wf (processNode node chain).1.
Proof.
  intros Hlen. unfold nodeInfo_wf.
  destruct (decide (Node_LinkType node = ValidChildType)) as [Hvalid|Hne].
  - rewrite processNode_valid by done.
    cbn [fst AVMLogs AVMLogsValHashes AVMLogsAccHashes].
    by rewrite !length_fmap, accChain_length.
  - rewrite processNode_other by done. done.
Qed.

(** ** Where the code departs from its description *)

(** C2. [Equals] answers [true] on the records derived from two nodes that
    differ in the layer-1 transaction that created them, although the records
    differ in [L1TxHash]: the comparison leaves that field out. *)
Theorem Equals_ignores_L1TxHash :
  let a := (processNode Sample.validNode Sample.chain).1 in
  let b := (processNode Sample.resubmittedNode Sample.chain).1 in
  L1TxHash a ≠ L1TxHash b ∧ Equals a b = true.
Proof. split; [by vm_compute|by vm_compute]. Qed.

(** C7. On the record derived from a node whose second raw log does not
    decode, the groups record the transaction indices 0 and 2 and hold one
    log each, and [calculateBloomFilter] tags the two logs with the
    transaction indices 0 and 1: it takes the position of the group in
    [EVMLogs], not the index the group records. *)
Theorem calculateBloomFilter_tags_position :
  li_TxIndex <$> EVMLogs Sample.validInfo = [0; 2]
  ∧ length ∘ li_Logs <$> EVMLogs Sample.validInfo = [1; 1]%nat
  ∧ el_TxIndex <$> (bloomLogs Sample.validInfo).1 = [0; 1]
  ∧ el_Index <$> (bloomLogs Sample.validInfo).1 = [0; 1].
Proof. by vm_compute. Qed.

(** C5 fails as stated: at index 0 of a record with three value hashes the
    view holds the two hashes after the first, not the one hash from index 2
    on. *)
Lemma getTxInfo_val_hashes_not_from_successor :
  nodeInfo_wf Sample.validInfo
  ∧ 0 < N.of_nat (length (AVMLogs Sample.validInfo))
  ∧ ∃ ti,
      getTxInfo zeroHash Sample.validInfo 0 = Some ti
      ∧ LogsValHashes ti
        ≠ drop (N.to_nat 0 + 2) (AVMLogsValHashes Sample.validInfo).
Proof.
  split; [by vm_compute|]. split; [by vm_compute|].
  eexists. split; [by vm_compute|]. by vm_compute.
Qed.

(** ** The theorems at work on the sample nodes *)

Lemma processNode_not_valid_witness :
  Node_LinkType Sample.otherNode ≠ ValidChildType
  ∧ let ni := (processNode Sample.otherNode Sample.chain).1 in
    AVMLogs ni = [] ∧ AVMMessages ni = []
    ∧ AVMLogsValHashes ni = [] ∧ AVMLogsAccHashes ni = []
    ∧ EVMLogs ni = [] ∧ EVMTransactionHashes ni = []
    ∧ NodeHash ni = Node_Hash Sample.otherNode
    ∧ NodeHeight ni = Node_Depth Sample.otherNode
    ∧ L1TxHash ni = Node_AssertionTxHash Sample.otherNode.
Proof.
  split; [discriminate|].
  apply (processNode_not_valid Sample.otherNode Sample.chain). discriminate.
Defined.

Lemma processNode_log_hashes_witness :
  Node_LinkType Sample.validNode = ValidChildType
  ∧ let ni := (processNode Sample.validNode Sample.chain).1 in
    AVMLogs ni = Logs (Node_Assertion Sample.validNode)
    ∧ length (AVMLogsValHashes ni) = length (AVMLogs ni)
    ∧ length (AVMLogsAccHashes ni) = length (AVMLogs ni)
    ∧ ∀ (i : nat) v, AVMLogs ni !! i = Some v →
        AVMLogsValHashes ni !! i = Some (Encode (Value_Hash v))
        ∧ ∃ prev : Hash,
            match i with
            | O => prev = zeroHash
            | S j => AVMLogsAccHashes ni !! j = Some (Encode prev)
            end
            ∧ AVMLogsAccHashes ni !! i
              = Some (Encode (SoliditySHA3 [Bytes32 prev; Bytes32 (Value_Hash v)])).
Proof.
  split; [reflexivity|].
  apply (processNode_log_hashes Sample.validNode Sample.chain). reflexivity.
Defined.

Lemma processNode_decoding_witness :
  Node_LinkType Sample.validNode = ValidChildType
  ∧ let ni := (processNode Sample.validNode Sample.chain).1 in
    let logs := Logs (Node_Assertion Sample.validNode) in
    AVMLogs ni = logs
    ∧ EVMLogs ni = concat (imap (decodedGroup Sample.chain) logs)
    ∧ EVMTransactionHashes ni = li_TxHash <$> EVMLogs ni
    ∧ ∀ (i : nat) v, logs !! i = Some v →
        filter (λ g, li_TxIndex g = N.of_nat i) (EVMLogs ni)
        = match ProcessLog v Sample.chain with
          | inr _ => []
          | inl r => [mkLogsInfo (GetLogs r) (N.of_nat i)
                        (Msg_TxHash (GetEthMsg r))]
          end.
Proof.
  split; [reflexivity|].
  apply (processNode_decoding Sample.validNode Sample.chain). reflexivity.
Defined.

Lemma getTxInfo_pre_post_hash_witness :
  nodeInfo_wf Sample.validInfo
  ∧ 2 < N.of_nat (length (AVMLogs Sample.validInfo))
  ∧ ∃ ti,
      getTxInfo zeroHash Sample.validInfo 2 = Some ti
      ∧ LogsPostHash ti
        = default (Encode zeroHash)
            (list.last (AVMLogsAccHashes Sample.validInfo))
      ∧ (if decide (2 = 0) then LogsPreHash ti = Encode zeroHash
         else AVMLogsAccHashes Sample.validInfo !! (N.to_nat 2 - 1)%nat
              = Some (LogsPreHash ti)).
Proof.
  assert (nodeInfo_wf Sample.validInfo) as Hwf
    by (vm_compute; repeat split; reflexivity).
  assert (2 < N.of_nat (length (AVMLogs Sample.validInfo))) as Hidx
    by (vm_compute; reflexivity).
  split; [exact Hwf|]. split; [exact Hidx|].
  exact (getTxInfo_pre_post_hash zeroHash Sample.validInfo 2 Hwf Hidx).
Defined.

Lemma getTxInfo_val_hashes_after_own_witness :
  nodeInfo_wf Sample.validInfo
  ∧ 0 < N.of_nat (length (AVMLogs Sample.validInfo))
  ∧ ∃ ti,
      getTxInfo zeroHash Sample.validInfo 0 = Some ti
      ∧ length (LogsValHashes ti)
        = (length (AVMLogsValHashes Sample.validInfo) - (N.to_nat 0 + 1))%nat
      ∧ ∀ k : nat,
          LogsValHashes ti !! k
          = AVMLogsValHashes Sample.validInfo !! (N.to_nat 0 + 1 + k)%nat.
Proof.
  assert (nodeInfo_wf Sample.validInfo) as Hwf
    by (vm_compute; repeat split; reflexivity).
  assert (0 < N.of_nat (length (AVMLogs Sample.validInfo))) as Hidx
    by (vm_compute; reflexivity).
  split; [exact Hwf|]. split; [exact Hidx|].
  exact (getTxInfo_val_hashes_after_own zeroHash Sample.validInfo 0 Hwf Hidx).
Defined.

Lemma getTxInfo_val_hashes_suffix_witness :
  nodeInfo_wf Sample.validInfo
  ∧ 2 < N.of_nat (length (AVMLogs Sample.validInfo))
  ∧ ∃ ti,
      getTxInfo zeroHash Sample.validInfo 2 = Some ti
      ∧ LogsValHashes ti
        = drop (N.to_nat 2 + 1) (AVMLogsValHashes Sample.validInfo)
      ∧ ((N.to_nat 2 + 1)%nat = length (AVMLogs Sample.validInfo) →
         LogsValHashes ti = []).
Proof.
  assert (nodeInfo_wf Sample.validInfo) as Hwf
    by (vm_compute; repeat split; reflexivity).
  assert (2 < N.of_nat (length (AVMLogs Sample.validInfo))) as Hidx
    by (vm_compute; reflexivity).
  split; [exact Hwf|]. split; [exact Hidx|].
  exact (getTxInfo_val_hashes_suffix zeroHash Sample.validInfo 2 Hwf Hidx).
Defined.

(** ** More on derivation *)

Section DerivationMore.
Context {Value Result Msg Err : Type}.
Context `{!ValueOps Value, !HashPrimitive, !EvmResult Result Msg,
          !LogDecoder Value Result Err}.
Implicit Types (node : Node Value) (ni : nodeInfo Value) (chain : Address).

Lemma decodedGroup_length chain (i : nat) (v : Value) :
  length (decodedGroup chain i v) = if decodes chain v then 1%nat else 0%nat.
Proof. unfold decodedGroup, decodes. by destruct (ProcessLog v chain). Qed.

Lemma decodedGroups_length chain k (logs : list Value) :
  (length (concat (imap (λ j, decodedGroup chain (k + j)) logs))
   ≤ length logs)%nat.
Proof.
  revert k. induction logs as [|w logs IH]; intros k; [done|].
  rewrite imap_cons, decodedGroups_shift. cbn [concat].
  rewrite length_app, decodedGroup_length. specialize (IH (S k)).
  destruct (decodes chain w); cbn [length]; lia.
Qed.

Lemma decodedGroups_lookup_bounds chain k (logs : list Value) (p : nat) g :
  concat (imap (λ j, decodedGroup chain (k + j)) logs) !! p = Some g →
  N.of_nat (k + p) ≤ li_TxIndex g
  ∧ li_TxIndex g < N.of_nat (k + length logs).
Proof.
  revert k p. induction logs as [|w logs IH]; intros k p; [done|].
  rewrite imap_cons, decodedGroups_shift. cbn [concat].
  rewrite Nat.add_0_r. unfold decodedGroup at 1.
  destruct (ProcessLog w chain) as [r|e]; cbn [app length].
  - destruct p as [|p]; simpl.
    + intros [= <-]. simpl. lia.
    + intros Hp. apply (IH (S k)) in Hp. lia.
  - intros Hp. apply (IH (S k)) in Hp. lia.
Qed.

Lemma decodedGroups_aligned chain k (logs : list Value) :
  forallb (decodes chain) logs = true →
  length (concat (imap (λ j, decodedGroup chain (k + j)) logs)) = length logs
  ∧ ∀ (p : nat) g,
      concat (imap (λ j, decodedGroup chain (k + j)) logs) !! p = Some g →
      li_TxIndex g = N.of_nat (k + p).
Proof.
  revert k. induction logs as [|w logs IH]; intros k Hall; [done|].
  cbn [forallb] in Hall. apply andb_true_iff in Hall as [Hw Hall].
  destruct (IH (S k) Hall) as [Hlen Hidx].
  rewrite imap_cons, decodedGroups_shift. cbn [concat].
  rewrite Nat.add_0_r. unfold decodes in Hw. unfold decodedGroup at 1 3.
  destruct (ProcessLog w chain) as [r|e]; [|done]. cbn [app length].
  split; [by rewrite Hlen|]. intros [|p] g; simpl.
  - intros [= <-]. simpl. lia.
  - intros Hp. rewrite (Hidx p g Hp). lia.
Qed.

Lemma processNode_trace_valid node chain :
  Node_LinkType node = ValidChildType →
  (processNode node chain).2
  = concat (diagnosticsOf chain <$> Logs (Node_Assertion node)).
Proof.
  intros Hvalid. unfold processNode.
  destruct (decide _) as [Hne|_]; [done|].
  unfold range. destruct (range_from accBody _ _ _) as [acc ni].
  by rewrite evmLoop_trace.
Qed.

Lemma decodedGroups_accounted chain k (logs : list Value) :
  (length (concat (imap (λ j, decodedGroup chain (k + j)) logs))
   + length (filter (λ d, isInvalidEvmResult d)
               (concat (diagnosticsOf chain <$> logs))))%nat
  = length logs.
Proof.
  revert k. induction logs as [|w logs IH]; intros k; [done|].
  rewrite imap_cons, decodedGroups_shift, fmap_cons. cbn [concat].
  rewrite list.filter_app, !length_app. specialize (IH (S k)).
  revert IH.
  generalize (length (concat (imap (λ j, decodedGroup chain (S k + j)) logs))).
  generalize (length (filter (λ d : Diagnostic Err, isInvalidEvmResult d)
                        (concat (diagnosticsOf chain <$> logs)))).
  intros m n IH. unfold decodedGroup, diagnosticsOf.
  destruct (ProcessLog w chain) as [r|e]; [destruct (AsRevert r)|];
    simpl; lia.
Qed.

Lemma accChain_take acc (logs : list Value) (k : nat) :
  take k (accChain acc logs) = accChain acc (take k logs).
Proof.
  revert acc k. induction logs as [|w logs IH]; intros acc [|k]; simpl;
    try done. by rewrite IH.
Qed.

Lemma accChain_lookup_replay acc (logs : list Value) (i : nat) :
  (i < length logs)%nat →
  accChain acc logs !! i = Some (replay acc (Value_Hash <$> take (S i) logs)).
Proof.
  revert acc i. induction logs as [|w logs IH]; intros acc i Hi; simpl in Hi;
    [lia|].
  destruct i as [|i]; cbn [accChain take fmap list_fmap].
  - by rewrite take_0.
  - cbn [lookup list_lookup]. rewrite IH by lia. done.
Qed.

(** X1. In every derived record there are as many transaction hashes as
    groups, and no more groups than raw logs. *)
Theorem processNode_group_count node chain :
  let ni := (processNode node chain).1 in
  length (EVMLogs ni) = length (EVMTransactionHashes ni)
  ∧ (length (EVMLogs ni) ≤ length (AVMLogs ni))%nat.
Proof.
  destruct (decide (Node_LinkType node = ValidChildType)) as [Hvalid|Hne].
  - rewrite processNode_valid by done.
    cbn [fst EVMLogs EVMTransactionHashes AVMLogs].
    split; [by rewrite length_fmap|].
    exact (decodedGroups_length chain 0 _).
  - rewrite processNode_other by done. done.
Qed.

(** X2. The group at position [p] of a derived record records a transaction
    index that is at least [p] and is an index of the raw logs. *)
Theorem processNode_group_index_bounds node chain (p : nat) g :
  EVMLogs (processNode node chain).1 !! p = Some g →
  N.of_nat p ≤ li_TxIndex g
  ∧ li_TxIndex g < N.of_nat (length (AVMLogs (processNode node chain).1)).
Proof.
  destruct (decide (Node_LinkType node = ValidChildType)) as [Hvalid|Hne].
  - rewrite processNode_valid by done. cbn [fst EVMLogs AVMLogs].
    exact (decodedGroups_lookup_bounds chain 0 _ p g).
  - rewrite processNode_other by done. done.
Qed.

(** X3. When every raw log of a valid node decodes, the groups line up with
    the raw logs: there is one group per raw log, and the group at position
    [p] records the transaction index [p]. *)
Theorem processNode_aligned_when_all_decode node chain :
  Node_LinkType node = ValidChildType →
  forallb (decodes chain) (Logs (Node_Assertion node)) = true →
  let ni := (processNode node chain).1 in
  length (EVMLogs ni) = length (AVMLogs ni)
  ∧ ∀ (p : nat) g, EVMLogs ni !! p = Some g → li_TxIndex g = N.of_nat p.
Proof.
  intros Hvalid Hall. rewrite processNode_valid by done.
  cbn [fst EVMLogs AVMLogs].
  exact (decodedGroups_aligned chain 0 _ Hall).
Qed.

(** X4. The lines [processNode] writes: none for a node that is not valid;
    for a valid node, in the order of the raw logs, one line with the error
    for each raw log that does not decode and one line with the return value
    for each raw log that decodes to a revert. *)
Theorem processNode_trace node chain :
  (processNode node chain).2
  = if decide (Node_LinkType node = ValidChildType)
    then concat (diagnosticsOf chain <$> Logs (Node_Assertion node))
    else [].
Proof.
  destruct (decide _) as [Hvalid|Hne].
  - by rewrite processNode_trace_valid.
  - by rewrite processNode_other.
Qed.

(** X5. Every raw log is accounted for: the number of groups plus the
    number of lines about raw logs that did not decode is the number of raw
    logs of the record. *)
Theorem processNode_every_log_accounted node chain :
  let ni := (processNode node chain).1 in
  let trace := (processNode node chain).2 in
  (length (EVMLogs ni) + length (filter (λ d, isInvalidEvmResult d) trace))%nat
  = length (AVMLogs ni).
Proof.
  destruct (decide (Node_LinkType node = ValidChildType)) as [Hvalid|Hne].
  - rewrite processNode_trace_valid, processNode_valid by done.
    cbn [fst EVMLogs AVMLogs].
    exact (decodedGroups_accounted chain 0 _).
  - rewrite processNode_other by done. done.
Qed.

(** X6. The first [k] value hashes and accumulator hashes of a valid node
    depend only on its first [k] raw logs: two valid nodes whose raw logs
    agree up to [k] have the same first [k] hashes, whatever follows and
    whatever the chain address. *)
Theorem processNode_hashes_prefix_stable node1 node2 chain1 chain2 (k : nat) :
  Node_LinkType node1 = ValidChildType →
  Node_LinkType node2 = ValidChildType →
  take k (Logs (Node_Assertion node1)) = take k (Logs (Node_Assertion node2)) →
  take k (AVMLogsValHashes (processNode node1 chain1).1)
  = take k (AVMLogsValHashes (processNode node2 chain2).1)
  ∧ take k (AVMLogsAccHashes (processNode node1 chain1).1)
    = take k (AVMLogsAccHashes (processNode node2 chain2).1).
Proof.
  intros Hvalid1 Hvalid2 Hlogs. rewrite !processNode_valid by done.
  cbn [fst AVMLogsValHashes AVMLogsAccHashes].
  rewrite <- !fmap_take, !accChain_take. by rewrite Hlogs.
Qed.

(** X7. The view of the transaction at a position of a valid node carries
    what a verifier needs: with the raw logs split as [pre ++ v :: post],
    [getTxInfo] at index [len(pre)] returns; its raw value is [v]; its pre
    hash encodes the accumulator replayed from the zero hash over the value
    hashes of [pre]; its value hashes are those of [post]; and its post hash
    encodes the accumulator replayed from the pre hash over the value hash of
    [v] followed by those of [post]. *)
Theorem getTxInfo_processNode_replay node chain txHash (pre post : list Value) v :
  Node_LinkType node = ValidChildType →
  Logs (Node_Assertion node) = pre ++ v :: post →
  N.of_nat (length (Logs (Node_Assertion node))) < 2 ^ 63 →
  let preHash := replay zeroHash (Value_Hash <$> pre) in
  ∃ ti,
    getTxInfo txHash (processNode node chain).1 (N.of_nat (length pre)) = Some ti
    ∧ RawVal ti = v
    ∧ LogsPreHash ti = Encode preHash
    ∧ LogsValHashes ti = (λ w, Encode (Value_Hash w)) <$> post
    ∧ LogsPostHash ti
      = Encode (replay preHash (Value_Hash v :: (Value_Hash <$> post))).
Proof.
  intros Hvalid Hlogs Hlen preHash.
  destruct (getTxInfo_wf txHash (processNode node chain).1
              (N.of_nat (length pre)))
    as (rawVal & postS & preS & Hraw & Hpost & Hpre & ->).
  { by apply processNode_wf. }
  { rewrite processNode_valid by done. cbn [fst AVMLogs].
    rewrite Hlogs, length_app. simpl. lia. }
  revert Hraw Hpost Hpre. rewrite processNode_valid by done.
  cbn [fst AVMLogs AVMLogsAccHashes AVMLogsValHashes]. rewrite Hlogs.
  rewrite Nat2N.id. intros Hraw Hpost Hpre.
  eexists. split; [done|].
  cbn [RawVal LogsPreHash LogsValHashes LogsPostHash].
  split; [|split; [|split]].
  - rewrite list_lookup_middle in Hraw by done. by injection Hraw.
  - destruct (decide (N.of_nat (length pre) = 0)) as [Hzero|Hpos].
    + destruct pre; [by rewrite Hpre|done].
    + rewrite list_lookup_fmap, accChain_lookup_replay in Hpre
        by (rewrite length_app; simpl; lia).
      replace (S (length pre - 1)) with (length pre) in Hpre by lia.
      rewrite take_app_length in Hpre. by injection Hpre.
  - rewrite <- fmap_drop. f_equal.
    rewrite (cons_middle v pre post), app_assoc.
    apply drop_app_length'. rewrite length_app. simpl. lia.
  - rewrite fmap_last, last_lookup, accChain_length in Hpost.
    rewrite accChain_lookup_replay in Hpost
      by (rewrite length_app; simpl; lia).
    replace (S (pred (length (pre ++ v :: post))))
      with (length (pre ++ v :: post)) in Hpost
      by (rewrite length_app; simpl; lia).
    rewrite firstn_all, fmap_app, fmap_cons in Hpost.
    unfold replay in Hpost. rewrite foldl_app in Hpost.
    by injection Hpost.
Qed.

End DerivationMore.

(** ** More on the transaction view *)

Section TxViewMore.
Context {Value : Type}.
Implicit Types (ni : nodeInfo Value) (txHash : Hash) (txIndex : N).

(** X8. For an index whose successor fits in 64 bits, [getTxInfo] returns
    (it does not run out of range) exactly when the index is below the number
    of raw logs and of value hashes and at most the number of accumulator
    hashes. *)
Theorem getTxInfo_returns_iff txHash ni txIndex :
  txIndex + 1 < 2 ^ 64 →
  is_Some (getTxInfo txHash ni txIndex)
  ↔ txIndex < N.of_nat (length (AVMLogs ni))
    ∧ txIndex < N.of_nat (length (AVMLogsValHashes ni))
    ∧ txIndex ≤ N.of_nat (length (AVMLogsAccHashes ni)).
Proof.
  intros Hfit. unfold getTxInfo, sliceFrom, index.
  rewrite wrap64_small by done.
  assert (is_Some (if decide (0 < length (AVMLogsAccHashes ni))%nat
                   then AVMLogsAccHashes ni
                          !! (length (AVMLogsAccHashes ni) - 1)%nat
                   else Some (Encode zeroHash))) as [post ->].
  { destruct (decide _); [|done]. apply lookup_lt_is_Some_2. lia. }
  cbn [mbind option_bind].
  destruct (decide (0 < txIndex)) as [Hpos|Hzero].
  - rewrite sub64_one by lia.
    destruct (AVMLogsAccHashes ni !! N.to_nat (txIndex - 1)) as [pre|] eqn:Hpre;
      cbn [mbind option_bind].
    + apply lookup_lt_Some in Hpre.
      destruct (decide _) as [Hval|Hval]; cbn [mbind option_bind].
      * destruct (AVMLogs ni !! N.to_nat txIndex) as [rawVal|] eqn:Hraw;
          cbn [mbind option_bind].
        -- apply lookup_lt_Some in Hraw. split; [lia|done].
        -- apply lookup_ge_None in Hraw. split; [by intros []|lia].
      * split; [by intros []|lia].
    + apply lookup_ge_None in Hpre. split; [by intros []|lia].
  - cbn [mbind option_bind].
    destruct (decide _) as [Hval|Hval]; cbn [mbind option_bind].
    + destruct (AVMLogs ni !! N.to_nat txIndex) as [rawVal|] eqn:Hraw;
        cbn [mbind option_bind].
      * apply lookup_lt_Some in Hraw. split; [lia|done].
      * apply lookup_ge_None in Hraw. split; [by intros []|lia].
    + split; [by intros []|lia].
Qed.

End TxViewMore.

(** ** More on structural comparison *)

Lemma slicesEqual_from_checked_spec {A : Type} (same : A → A → bool) i
    (a b : list A) :
  (i + length a)%nat = length b →
  slicesEqual_from_checked same i a b = Some (slicesEqual_from same i a b).
Proof.
  revert i. induction a as [|t a IH]; intros i Hlen; simpl in *; [done|].
  destruct (lookup_lt_is_Some_2 b i) as [u Hu]; [lia|].
  rewrite Hu. destruct (same t u); simpl; [|done]. apply IH. lia.
Qed.

Section ComparisonMore.
Context {Value : Type} `{!ValueOps Value}.
Implicit Types (ni o : nodeInfo Value).

(** X9. [valueSlicesEqual] never reads [b[i]] out of range: the function
    with the panic kept returns, and returns what [valueSlicesEqual] does.
    The answer is [true] exactly when the two slices have the same length and
    [value.Eq] accepts the two values at every index. *)
Theorem valueSlicesEqual_never_panics_iff (a b : list Value) :
  valueSlicesEqual_checked a b = Some (valueSlicesEqual a b)
  ∧ (valueSlicesEqual a b = true
     ↔ length a = length b
       ∧ ∀ (i : nat) x y,
           a !! i = Some x → b !! i = Some y → Value_Eq x y = true).
Proof.
  split.
  - unfold valueSlicesEqual_checked, valueSlicesEqual, slicesEqual_checked,
      slicesEqual.
    destruct (length a =? length b)%nat eqn:Hlen; [|done].
    apply Nat.eqb_eq in Hlen. by apply slicesEqual_from_checked_spec.
  - unfold valueSlicesEqual.
    by rewrite slicesEqual_spec, Forall2_same_length_lookup.
Qed.

(** X10. [stringSlicesEqual] and [hashSlicesEqual] answer [true] exactly
    when the two slices are equal, element by element and in length. *)
Theorem stringSlicesEqual_hashSlicesEqual_iff
    (a b : list string) (c d : list Hash) :
  (stringSlicesEqual a b = true ↔ a = b)
  ∧ (hashSlicesEqual c d = true ↔ c = d).
Proof.
  split; apply slicesEqual_eq; intros; apply bool_decide_eq_true.
Qed.

(** X11. When [value.Eq] decides equality of values, [Equals] answers
    [true] exactly when the two records are the same up to [L1TxHash]. *)
Theorem Equals_iff_same_up_to_L1TxHash ni o :
  (∀ x y : Value, Value_Eq x y = true ↔ x = y) →
  Equals ni o = true ↔ ni = set_L1TxHash o (L1TxHash ni).
Proof.
  intros Hval. rewrite Equals_spec by done.
  destruct ni, o; unfold set_L1TxHash; simpl. split.
  - by intros (-> & -> & -> & -> & -> & -> & -> & ->).
  - by intros [= -> -> -> -> -> -> -> ->].
Qed.

End ComparisonMore.

(** ** Queries and views over derived records *)

Lemma FindLogs_closed {Value : Type} (ni : nodeInfo Value) addresses topics :
  FindLogs ni addresses topics
  = concat (groupResponses addresses topics <$> EVMLogs ni).
Proof.
  unfold FindLogs, range.
  enough (∀ gs i acc,
    range_from (λ _ txLogs logs,
        range_from (λ _ evmLog logs,
            if MatchesQuery evmLog addresses topics
            then logs ++ [mkLogResponse evmLog (li_TxIndex txLogs)
                            (li_TxHash txLogs)]
            else logs) 0 (li_Logs txLogs) logs) i gs acc
    = acc ++ concat (groupResponses addresses topics <$> gs)) as Houter
    by apply (Houter (EVMLogs ni) 0%nat []).
  induction gs as [|g gs IH]; intros i acc; simpl.
  - by rewrite app_nil_r.
  - by rewrite IH, FindLogs_inner, <- app_assoc.
Qed.

Lemma bloomLogs_length {Value : Type} (ni : nodeInfo Value) :
  length (bloomLogs ni).1 = length (concat (li_Logs <$> EVMLogs ni)).
Proof.
  rewrite bloomLogs_spec, length_imap.
  enough (∀ gs i,
    length (concat (imap (λ k, bloomTagged ni (i + k)) gs))
    = length (concat (li_Logs <$> gs))) as Hgen
    by exact (Hgen (EVMLogs ni) 0%nat).
  induction gs as [|g gs IH]; intros i; [done|].
  rewrite imap_cons, fmap_cons. cbn [concat]. rewrite !length_app.
  f_equal; [by unfold bloomTagged; rewrite length_fmap|].
  rewrite <- (IH (S i)). do 2 f_equal.
  apply imap_ext. intros k x _. simpl. f_equal. lia.
Qed.

Section Composition.
Context {Value Result Msg Err : Type}.
Context `{!ValueOps Value, !HashPrimitive, !EvmResult Result Msg,
          !LogDecoder Value Result Err}.
Implicit Types (node : Node Value) (ni : nodeInfo Value) (chain : Address).

(** A group of a derived record comes from the raw log at the index it
    records. *)
Lemma processNode_group_origin node chain g :
  g ∈ EVMLogs (processNode node chain).1 →
  Node_LinkType node = ValidChildType
  ∧ ∃ v r,
      Logs (Node_Assertion node) !! N.to_nat (li_TxIndex g) = Some v
      ∧ ProcessLog v chain = inl r
      ∧ g = mkLogsInfo (GetLogs r) (li_TxIndex g) (Msg_TxHash (GetEthMsg r)).
Proof.
  destruct (decide (Node_LinkType node = ValidChildType)) as [Hvalid|Hne].
  - rewrite processNode_valid by done. cbn [fst EVMLogs]. intros Hg.
    split; [done|].
    apply (decodedGroups_elem chain 0) in Hg as (j & v & Hj & Hg).
    exists v. revert Hg. unfold decodedGroup.
    destruct (ProcessLog v chain) as [r|e]; [|by intros ?%elem_of_nil].
    intros ->%list_elem_of_singleton. exists r. simpl.
    by rewrite Nat2N.id.
  - rewrite processNode_other by done. by intros ?%elem_of_nil.
Qed.

(** X12. Whatever the link type and whatever decodes, the derived record
    names its node: hash, depth and assertion transaction hash are copied. *)
Theorem processNode_identity node chain :
  let ni := (processNode node chain).1 in
  NodeHash ni = Node_Hash node
  ∧ NodeHeight ni = Node_Depth node
  ∧ L1TxHash ni = Node_AssertionTxHash node.
Proof.
  destruct (decide (Node_LinkType node = ValidChildType)) as [Hvalid|Hne].
  - by rewrite processNode_valid.
  - by rewrite processNode_other.
Qed.

(** X13. The index and hash recorded in a group of a derived record lead
    back to it: [getTxInfo] at the group's transaction index returns, and the
    raw value of the view decodes to the logs and the transaction hash of the
    group. *)
Theorem getTxInfo_of_group node chain g :
  N.of_nat (length (Logs (Node_Assertion node))) < 2 ^ 63 →
  g ∈ EVMLogs (processNode node chain).1 →
  ∃ ti r,
    getTxInfo (li_TxHash g) (processNode node chain).1 (li_TxIndex g) = Some ti
    ∧ ProcessLog (RawVal ti) chain = inl r
    ∧ GetLogs r = li_Logs g
    ∧ Msg_TxHash (GetEthMsg r) = li_TxHash g.
Proof.
  intros Hlen Hg.
  destruct (processNode_group_origin node chain g Hg)
    as (Hvalid & v & r & Hv & Hr & Heq).
  destruct (getTxInfo_wf (li_TxHash g) (processNode node chain).1 (li_TxIndex g))
    as (rawVal & post & pre & Hraw & _ & _ & ->).
  { by apply processNode_wf. }
  { rewrite processNode_valid by done. cbn [fst AVMLogs].
    apply lookup_lt_Some in Hv. lia. }
  revert Hraw. rewrite processNode_valid by done. cbn [fst AVMLogs].
  rewrite Hv. intros [= <-]. eexists. exists r. cbn [RawVal].
  split; [done|]. split; [done|]. by rewrite Heq.
Qed.

(** X14. Every response of [FindLogs] on a derived record can be traced to
    a raw log: the node is valid, the raw log at the response's transaction
    index decodes, the response's log is one of the decoded logs, its
    transaction hash is that of the decoded message, and the log satisfies
    the query. *)
Theorem FindLogs_processNode_provenance node chain addresses topics resp :
  resp ∈ FindLogs (processNode node chain).1 addresses topics →
  Node_LinkType node = ValidChildType
  ∧ ∃ v r,
      Logs (Node_Assertion node) !! N.to_nat (lr_TxIndex resp) = Some v
      ∧ ProcessLog v chain = inl r
      ∧ lr_Log resp ∈ GetLogs r
      ∧ lr_TxHash resp = Msg_TxHash (GetEthMsg r)
      ∧ MatchesQuery (lr_Log resp) addresses topics = true.
Proof.
  rewrite FindLogs_closed.
  intros (rs & Hresp & (g & -> & Hg)%list_elem_of_fmap)%elem_of_concat.
  destruct (processNode_group_origin node chain g Hg)
    as (Hvalid & v & r & Hv & Hr & Heq).
  split; [done|]. exists v, r. unfold groupResponses in Hresp.
  apply list_elem_of_fmap in Hresp as (l & -> & Hl).
  apply list_elem_of_filter in Hl as [Hmatch Hl]. cbn [lr_Log lr_TxIndex lr_TxHash].
  split; [done|]. split; [done|]. rewrite Heq in Hl |- *. simpl in *.
  split; [done|]. split; [done|]. by apply Is_true_true_1.
Qed.

End Composition.

(** ** More on the bloom filter input *)

Section BloomMore.
Context {Value Big Bloom : Type} `{!BloomOps Big Bloom}.
Implicit Types (ni : nodeInfo Value).

(** X15. [calculateBloomFilter] hands [types.LogsBloom] one log per decoded
    log of the record, and the log at position [m] of that list has log index
    [m] modulo [2^64]: the index runs over all groups and is not reset. *)
Theorem bloomLogs_global_index ni :
  length (bloomLogs ni).1 = length (concat (li_Logs <$> EVMLogs ni))
  ∧ ∀ (m : nat) x, (bloomLogs ni).1 !! m = Some x →
      el_Index x = wrap64 (N.of_nat m).
Proof.
  split; [apply bloomLogs_length|]. intros m x.
  rewrite bloomLogs_spec, list_lookup_imap.
  destruct (concat _ !! m) as [y|]; [|done]. by intros [= <-].
Qed.

(** X16. On a record without decoded logs, [calculateBloomFilter] is the
    filter of the empty list of logs. *)
Theorem calculateBloomFilter_no_logs ni :
  concat (li_Logs <$> EVMLogs ni) = [] →
  calculateBloomFilter ni = BytesToBloom (Big_Bytes (LogsBloom [])).
Proof.
  intros Hnone. unfold calculateBloomFilter. do 3 f_equal.
  apply length_zero_iff_nil. by rewrite bloomLogs_length, Hnone.
Qed.

End BloomMore.

(** ** The further theorems at work on the sample nodes *)

Lemma processNode_group_index_bounds_witness :
  EVMLogs (processNode Sample.validNode Sample.chain).1 !! 1%nat
  = Some Sample.thirdLogGroup
  ∧ N.of_nat 1 ≤ li_TxIndex Sample.thirdLogGroup
  ∧ li_TxIndex Sample.thirdLogGroup
    < N.of_nat (length (AVMLogs (processNode Sample.validNode Sample.chain).1)).
Proof.
  split; [reflexivity|].
  apply (processNode_group_index_bounds Sample.validNode Sample.chain 1).
  reflexivity.
Defined.

Lemma processNode_aligned_when_all_decode_witness :
  Node_LinkType Sample.cleanNode = ValidChildType
  ∧ forallb (decodes Sample.chain) (Logs (Node_Assertion Sample.cleanNode)) = true
  ∧ let ni := (processNode Sample.cleanNode Sample.chain).1 in
    length (EVMLogs ni) = length (AVMLogs ni)
    ∧ ∀ (p : nat) g, EVMLogs ni !! p = Some g → li_TxIndex g = N.of_nat p.
Proof.
  split; [reflexivity|]. split; [reflexivity|].
  apply (processNode_aligned_when_all_decode Sample.cleanNode Sample.chain);
    reflexivity.
Defined.

Lemma processNode_hashes_prefix_stable_witness :
  take 1 (Logs (Node_Assertion Sample.validNode))
  = take 1 (Logs (Node_Assertion Sample.cleanNode))
  ∧ take 1 (AVMLogsValHashes (processNode Sample.validNode Sample.chain).1)
    = take 1 (AVMLogsValHashes (processNode Sample.cleanNode Sample.chain).1)
  ∧ take 1 (AVMLogsAccHashes (processNode Sample.validNode Sample.chain).1)
    = take 1 (AVMLogsAccHashes (processNode Sample.cleanNode Sample.chain).1).
Proof.
  split; [reflexivity|].
  apply (processNode_hashes_prefix_stable Sample.validNode Sample.cleanNode
           Sample.chain Sample.chain 1); reflexivity.
Defined.

Lemma getTxInfo_processNode_replay_witness :
  Logs (Node_Assertion Sample.validNode) = [0] ++ 1 :: [2]
  ∧ let preHash := replay zeroHash (Value_Hash <$> [0]) in
    ∃ ti,
      getTxInfo zeroHash (processNode Sample.validNode Sample.chain).1
        (N.of_nat (length [0])) = Some ti
      ∧ RawVal ti = 1
      ∧ LogsPreHash ti = Encode preHash
      ∧ LogsValHashes ti = (λ w, Encode (Value_Hash w)) <$> [2]
      ∧ LogsPostHash ti
        = Encode (replay preHash (Value_Hash 1 :: (Value_Hash <$> [2]))).
Proof.
  split; [reflexivity|].
  apply (getTxInfo_processNode_replay Sample.validNode Sample.chain zeroHash
           [0] [2] 1); reflexivity.
Defined.

Lemma getTxInfo_returns_iff_witness :
  1 + 1 < 2 ^ 64
  ∧ (is_Some (getTxInfo zeroHash Sample.validInfo 1)
     ↔ 1 < N.of_nat (length (AVMLogs Sample.validInfo))
       ∧ 1 < N.of_nat (length (AVMLogsValHashes Sample.validInfo))
       ∧ 1 ≤ N.of_nat (length (AVMLogsAccHashes Sample.validInfo))).
Proof.
  split; [reflexivity|].
  apply (getTxInfo_returns_iff zeroHash Sample.validInfo 1). reflexivity.
Defined.

Lemma Equals_iff_same_up_to_L1TxHash_witness :
  (∀ x y : N, Value_Eq x y = true ↔ x = y)
  ∧ (Equals Sample.validInfo Sample.validInfo = true
     ↔ Sample.validInfo
       = set_L1TxHash Sample.validInfo (L1TxHash Sample.validInfo)).
Proof.
  split; [exact N.eqb_eq|].
  apply (Equals_iff_same_up_to_L1TxHash Sample.validInfo Sample.validInfo).
  exact N.eqb_eq.
Defined.

Lemma getTxInfo_of_group_witness :
  N.of_nat (length (Logs (Node_Assertion Sample.validNode))) < 2 ^ 63
  ∧ Sample.thirdLogGroup ∈ EVMLogs (processNode Sample.validNode Sample.chain).1
  ∧ ∃ ti r,
      getTxInfo (li_TxHash Sample.thirdLogGroup)
        (processNode Sample.validNode Sample.chain).1
        (li_TxIndex Sample.thirdLogGroup) = Some ti
      ∧ ProcessLog (RawVal ti) Sample.chain = inl r
      ∧ GetLogs r = li_Logs Sample.thirdLogGroup
      ∧ Msg_TxHash (GetEthMsg r) = li_TxHash Sample.thirdLogGroup.
Proof.
  assert (Sample.thirdLogGroup
          ∈ EVMLogs (processNode Sample.validNode Sample.chain).1) as Hg
    by (apply (list_elem_of_lookup_2 _ 1%nat); reflexivity).
  split; [reflexivity|]. split; [exact Hg|].
  apply (getTxInfo_of_group Sample.validNode Sample.chain Sample.thirdLogGroup);
    [reflexivity|exact Hg].
Defined.

Lemma FindLogs_processNode_provenance_witness :
  let resp := mkLogResponse (mkLog Sample.chain [Sample.pad32 "002"%byte] [])
                2 (Sample.pad32 "102"%byte) in
  resp ∈ FindLogs (processNode Sample.validNode Sample.chain).1 [] []
  ∧ Node_LinkType Sample.validNode = ValidChildType
  ∧ ∃ v r,
      Logs (Node_Assertion Sample.validNode) !! N.to_nat (lr_TxIndex resp)
      = Some v
      ∧ ProcessLog v Sample.chain = inl r
      ∧ lr_Log resp ∈ GetLogs r
      ∧ lr_TxHash resp = Msg_TxHash (GetEthMsg r)
      ∧ MatchesQuery (lr_Log resp) [] [] = true.
Proof.
  intros resp.
  assert (resp ∈ FindLogs (processNode Sample.validNode Sample.chain).1 [] [])
    as Hresp by (apply (list_elem_of_lookup_2 _ 1%nat); reflexivity).
  split; [exact Hresp|].
  exact (FindLogs_processNode_provenance Sample.validNode Sample.chain [] []
           resp Hresp).
Defined.

Lemma calculateBloomFilter_no_logs_witness :
  concat (li_Logs <$> EVMLogs (processNode Sample.otherNode Sample.chain).1) = []
  ∧ calculateBloomFilter (processNode Sample.otherNode Sample.chain).1
    = BytesToBloom (Big_Bytes (LogsBloom [])).
Proof.
  split; [reflexivity|].
  apply (calculateBloomFilter_no_logs
           (processNode Sample.otherNode Sample.chain).1).
  reflexivity.
Defined.
